(** * The orchestration loop of the multi-agent RAG application

    A shallow embedding of [appcopy.py] (the speaker enumeration, the
    initial state, the turn-taking loop [run]) and of the tool closures of
    [document_pre_processing_agent.py] and [generation_agent.py].

    - The shared state is the Python [dict] that every agent closes over:
      a finite map from field names to Python values.
    - Tool closures are computations in a small state-and-exception monad
      over that dict.
    - The loop talks to four collaborators (the console, the continuation
      agent, the orchestration agent and the dispatched agent).  One
      iteration is a finite tree of such interactions; an oracle answers
      them and the interpreter records the trace.
    - A history is a Python list, and the agent library keeps the list it
      is handed as the memory of the agent: a chat appends its messages to
      that very list, and [memory.get_all()] returns it.  The loop
      variables record the contents of the two lists the loop holds and
      whether they are one object.
    - Console output ([print]) and failures inside the collaborators are
      not part of the model.
    - Strings are the UTF-8 bytes of Python strings.  [strip] removes the
      white space of [str.isspace]; [lower] lower-cases the ASCII letters,
      which settles the comparison with [exit]: a string with a code
      point outside the ASCII range does not lower-case to it. *)

From stdpp Require Import gmap strings list fin_maps.
From Stdlib Require Import Ascii String ZArith Bool Lia.

Local Open Scope string_scope.
Local Open Scope list_scope.

(** ** Python values and exceptions *)

#[warnings="-register-all"]
Inductive pyval : Type :=
| PNone
| PBool (b : bool)
| PInt (z : Z)
| PStr (s : string)
| PList (l : list pyval)
| PDict (d : list (string * pyval)).

Inductive exn : Type :=
| KeyError (key : string)
| TypeError
| AttributeError
| UnboundLocalError (name : string)
| ExecutorError.

Inductive result (A : Type) : Type :=
| Ok (a : A)
| Raised (e : exn).
Arguments Ok {A} a.
Arguments Raised {A} e.

(** [v is not None] *)
Definition is_not_None (v : pyval) : bool :=
  match v with PNone => false | _ => true end.

(** Truth value of [v] in a condition, as in [if (state["current_speaker"])]. *)
Definition truthy (v : pyval) : bool :=
  match v with
  | PNone => false
  | PBool b => b
  | PInt z => negb (z =? 0)%Z
  | PStr s => negb (String.eqb s "")
  | PList l => match l with [] => false | _ => true end
  | PDict d => match d with [] => false | _ => true end
  end.

(** [v == True] *)
Definition eq_True (v : pyval) : bool :=
  match v with
  | PBool b => b
  | PInt z => (z =? 1)%Z
  | _ => false
  end.

(** [v == s] for a string (or [str]-enum member) [s] *)
Definition eq_str (v : pyval) (s : string) : bool :=
  match v with PStr s' => String.eqb s' s | _ => false end.

(** ** [str.strip] and [str.lower] *)

(** The white space of the ASCII range. *)
Definition is_space (c : ascii) : bool :=
  let n := nat_of_ascii c in
  (((9 <=? n) && (n <=? 13)) || ((28 <=? n) && (n <=? 32)))%nat.

Definition bytes (codes : list nat) : string :=
  fold_right (fun n s => String (ascii_of_nat n) s) EmptyString codes.

(** The other white space of [str.isspace], in UTF-8: U+0085, U+00A0,
    U+1680, U+2000 to U+200A, U+2028, U+2029, U+202F, U+205F, U+3000. *)
Definition wide_spaces : list string :=
  List.map bytes
    [[194; 133]; [194; 160]; [225; 154; 128];
     [226; 128; 128]; [226; 128; 129]; [226; 128; 130]; [226; 128; 131];
     [226; 128; 132]; [226; 128; 133]; [226; 128; 134]; [226; 128; 135];
     [226; 128; 136]; [226; 128; 137]; [226; 128; 138];
     [226; 128; 168]; [226; 128; 169]; [226; 128; 175];
     [226; 129; 159]; [227; 128; 128]]%nat.

(** The number of bytes of the white-space character that [s] starts
    with, or 0 when it starts with none. *)
Definition space_width (s : string) : nat :=
  match s with
  | EmptyString => 0
  | String c _ =>
      if is_space c then 1
      else match List.find (fun p => String.prefix p s) wide_spaces with
           | Some p => String.length p
           | None => 0
           end
  end.

(** Whether [s] is one white-space character. *)
Definition is_space_character (s : string) : bool :=
  match s with
  | String c EmptyString => is_space c
  | _ => existsb (String.eqb s) wide_spaces
  end.

(** [skip] counts the bytes still to drop of the white-space character
    being removed. *)
Fixpoint lstrip_skipping (skip : nat) (s : string) : string :=
  match s with
  | EmptyString => EmptyString
  | String c s' =>
      match skip with
      | S k => lstrip_skipping k s'
      | O =>
          match space_width s with
          | O => s
          | S k => lstrip_skipping k s'
          end
      end
  end.

Definition lstrip (s : string) : string := lstrip_skipping 0 s.

Fixpoint rstrip (s : string) : string :=
  match s with
  | EmptyString => EmptyString
  | String c s' =>
      let r := rstrip s' in
      if is_space_character (String c r) then EmptyString else String c r
  end.

Definition strip (s : string) : string := rstrip (lstrip s).

Definition lower_char (c : ascii) : ascii :=
  let n := nat_of_ascii c in
  if ((65 <=? n) && (n <=? 90))%nat then ascii_of_nat (n + 32)%nat else c.

Fixpoint lower (s : string) : string :=
  match s with
  | EmptyString => EmptyString
  | String c s' => String (lower_char c) (lower s')
  end.

(** ** The speaker enumeration and the shared state *)

Inductive Speaker : Type :=
| Data_pre_processing
| Indexing
| Retriever
| ReRanking
| Generation
| Concierge
| ORCHESTRATOR.

Definition value (sp : Speaker) : string :=
  match sp with
  | Data_pre_processing => "data_pre_processing"
  | Indexing => "indexing"
  | Retriever => "retriever"
  | ReRanking => "reranking"
  | Generation => "generation"
  | Concierge => "Concierge"
  | ORCHESTRATOR => "orchestrator"
  end.

Definition get_initial_state : gmap string pyval :=
  <["input_dir" := PNone]> (
  <["chunk_size" := PNone]> (
  <["chunk_overlap" := PNone]> (
  <["embedding_model" := PNone]> (
  <["reranking_model" := PNone]> (
  <["search_type" := PNone]> (
  <["query" := PNone]> (
  <["current_speaker" := PNone]> (
  <["just_finished" := PBool false]> ∅)))))))).

(** ** Tool closures: a state-and-exception monad over the shared dict *)

Definition tool (A : Type) : Type :=
  gmap string pyval -> result A * gmap string pyval.

Definition tret {A} (a : A) : tool A := fun st => (Ok a, st).

Definition tbind {A B} (m : tool A) (f : A -> tool B) : tool B :=
  fun st =>
    match m st with
    | (Ok a, st') => f a st'
    | (Raised e, st') => (Raised e, st')
    end.

Definition traise {A} (e : exn) : tool A := fun st => (Raised e, st).

(** [state[key] = v] *)
Definition setitem (key : string) (v : pyval) : tool unit :=
  fun st => (Ok tt, <[key := v]> st).

(** [state[key]] *)
Definition getitem (key : string) : tool pyval :=
  fun st =>
    match st !! key with
    | Some v => (Ok v, st)
    | None => traise (KeyError key) st
    end.

#[export] Instance tool_ret : MRet tool := @tret.
#[export] Instance tool_bind : MBind tool := fun A B f m => tbind m f.

(** The tools the orchestration agent is given: read-only checks. *)
Module OrchestrationAgent.

Definition has_field (key : string) : tool bool :=
  v ← getitem key; mret (is_not_None v).

Definition has_input_dir : tool bool := has_field "input_dir".
Definition has_chunk_size : tool bool := has_field "chunk_size".
Definition has_chunk_overlap : tool bool := has_field "chunk_overlap".
Definition has_embedding_model : tool bool := has_field "embedding_model".
Definition has_reranking_model : tool bool := has_field "reranking_model".
Definition has_search_type : tool bool := has_field "search_type".
Definition has_query : tool bool := has_field "query".

End OrchestrationAgent.

(** The tools of [DocumentPreprocessingAgent(state)]. *)
Module DocumentPreprocessingAgent.

Definition has_input_dir (input_dir : pyval) : tool bool :=
  setitem "input_dir" input_dir;;
  v ← getitem "input_dir";
  mret (is_not_None v).

Definition has_chunk_size (chunk_size : pyval) : tool bool :=
  setitem "chunk_size" chunk_size;;
  v ← getitem "chunk_size";
  mret (is_not_None v).

Definition has_chunk_overlap (chunk_overlap : pyval) : tool bool :=
  setitem "chunk_overlap" chunk_overlap;;
  v ← getitem "chunk_overlap";
  mret (is_not_None v).

(** [doc_processor.process_documents]: reads and writes files only; the
    outcome of that work is given, the shared dict is not written. *)
Definition process_documents (outcome : result unit) : tool unit :=
  fun st => (outcome, st).

Definition done : tool unit :=
  setitem "current_speaker" PNone;;
  setitem "just_finished" (PBool true).

End DocumentPreprocessingAgent.

(** The tools of [GenerationAgent(state)].  Both take a parameter that is
    itself called [state]: inside them the name denotes the argument of
    the tool call, not the dict the factory closes over. *)
Module GenerationAgent.

(** [d[key] = v] on the value bound to the parameter *)
Fixpoint assoc_set (key : string) (v : pyval) (d : list (string * pyval))
  : list (string * pyval) :=
  match d with
  | [] => [(key, v)]
  | (k, w) :: d' =>
      if String.eqb k key then (k, v) :: d' else (k, w) :: assoc_set key v d'
  end.

Definition param_setitem (arg : pyval) (key : string) (v : pyval)
  : result pyval :=
  match arg with
  | PDict d => Ok (PDict (assoc_set key v d))
  | _ => Raised TypeError
  end.

(** What the code outside gives in one run of [generation(state)]:
    retrieval (with the join of its documents) runs first, the query is
    then read from the argument, and synthesis runs last. *)
Inductive executors : Type :=
| Retrieval_fails (e : exn)
| Synthesis_fails (e : exn)
| Answers (response : string).

(** Whether [state.get] exists: the argument is a dict. *)
Definition has_get (state_arg : pyval) : bool :=
  match state_arg with PDict _ => true | _ => false end.

(** What [generation(state)] returns or raises. *)
Definition generation_result (state_arg : pyval) (outside : executors)
  : result string :=
  match outside with
  | Retrieval_fails e => Raised e
  | Synthesis_fails e =>
      if has_get state_arg then Raised e else Raised AttributeError
  | Answers response =>
      if has_get state_arg then Ok response else Raised AttributeError
  end.

Definition generation (state_arg : pyval) (outside : executors)
  : tool string :=
  fun shared => (generation_result state_arg outside, shared).

(** The parameter after the two writes of [done(state)]. *)
Definition done_param (state_arg : pyval) : result pyval :=
  match param_setitem state_arg "current_speaker" PNone with
  | Ok a1 => param_setitem a1 "just_finished" (PBool true)
  | Raised e => Raised e
  end.

(** [done(state)] on its own argument: what it returns or raises, and the
    argument afterwards. *)
Definition done_on_argument (state_arg : pyval) (outside : executors)
  : result string * pyval :=
  match generation_result state_arg outside with
  | Ok response =>
      match done_param state_arg with
      | Ok written => (Ok response, written)
      | Raised e => (Raised e, state_arg)
      end
  | Raised e => (Raised e, state_arg)
  end.

Definition done (state_arg : pyval) (outside : executors) : tool string :=
  fun shared => (fst (done_on_argument state_arg outside), shared).

End GenerationAgent.

(** Modelled from the spec: the tools of the indexing agent, whose module
    [indexing_agent.py] is imported by [appcopy.py] but is not among the
    sources.  The spec gives a task agent a parameter setter per field it
    collects (for indexing: [embedding_model]) that returns whether the
    field is now set, and one completion action that clears
    [current_speaker] and sets [just_finished]. *)
Module QdrantIndexingAgent.

Definition has_embedding_model (embedding_model : pyval) : tool bool :=
  setitem "embedding_model" embedding_model;;
  v ← getitem "embedding_model";
  mret (is_not_None v).

Definition done : tool unit :=
  setitem "current_speaker" PNone;;
  setitem "just_finished" (PBool true).

End QdrantIndexingAgent.

(** ** Agent turns *)

Record ChatMessage : Type := { role : string; content : string }.

(** One tool call made by the language model behind an agent, with the
    arguments it passed and, for the tools that run an external executor,
    what that executor gave. *)
Inductive tool_call : Type :=
| pre_has_input_dir (input_dir : pyval)
| pre_has_chunk_size (chunk_size : pyval)
| pre_has_chunk_overlap (chunk_overlap : pyval)
| pre_process_documents (outcome : result unit)
| pre_done
| idx_has_embedding_model (embedding_model : pyval)
| idx_done
| gen_generation (state_arg : pyval) (outside : GenerationAgent.executors)
| gen_done (state_arg : pyval) (outside : GenerationAgent.executors)
| dummy_tool.

(** The tool list each factory hands to its agent. *)
Definition owns (who : Speaker) (c : tool_call) : bool :=
  match who, c with
  | Data_pre_processing, pre_has_input_dir _
  | Data_pre_processing, pre_has_chunk_size _
  | Data_pre_processing, pre_has_chunk_overlap _
  | Data_pre_processing, pre_process_documents _
  | Data_pre_processing, pre_done => true
  | Indexing, idx_has_embedding_model _
  | Indexing, idx_done => true
  | Generation, gen_generation _ _
  | Generation, gen_done _ _ => true
  | Concierge, dummy_tool => true
  | _, _ => false
  end.

Definition forget {A} (m : tool A) : tool unit :=
  fun st => match m st with
            | (Ok _, st') => (Ok tt, st')
            | (Raised e, st') => (Raised e, st')
            end.

Definition run_tool (c : tool_call) : tool unit :=
  match c with
  | pre_has_input_dir v => forget (DocumentPreprocessingAgent.has_input_dir v)
  | pre_has_chunk_size v => forget (DocumentPreprocessingAgent.has_chunk_size v)
  | pre_has_chunk_overlap v =>
      forget (DocumentPreprocessingAgent.has_chunk_overlap v)
  | pre_process_documents o => DocumentPreprocessingAgent.process_documents o
  | pre_done => DocumentPreprocessingAgent.done
  | idx_has_embedding_model v =>
      forget (QdrantIndexingAgent.has_embedding_model v)
  | idx_done => QdrantIndexingAgent.done
  | gen_generation a o => forget (GenerationAgent.generation a o)
  | gen_done a o => forget (GenerationAgent.done a o)
  | dummy_tool => tret tt
  end.

(** The shared dict after one tool call of agent [who]; a call to a tool
    the agent was not given runs nothing.  What a tool returns or raises
    goes back to the language model; the writes it made stand. *)
Definition tool_effect (who : Speaker) (st : gmap string pyval)
    (c : tool_call) : gmap string pyval :=
  if owns who c then snd (run_tool c st) else st.

Definition apply_calls (who : Speaker) (cs : list tool_call)
    (st : gmap string pyval) : gmap string pyval :=
  fold_left (tool_effect who) cs st.

(** A call of a completion action that writes the shared dict. *)
Definition is_completion (who : Speaker) (c : tool_call) : bool :=
  owns who c &&
  match c with pre_done | idx_done => true | _ => false end.

Definition signals_completion (who : Speaker) (cs : list tool_call) : bool :=
  existsb (is_completion who) cs.

(** What [current_speaker.chat(...)] did: the tool calls in order, the
    reply, and the messages it appended to the list it was handed. *)
Record agent_reply : Type :=
  { calls : list tool_call;
    response : string;
    added : list ChatMessage }.

(** ** One iteration of [run] as a tree of interactions *)

(** [ContinuationChat] and [OrchestrationChat] carry the dict the factory
    formatted into the prompt; their tools write nothing.  They answer
    with a text and with the messages the chat appended to the list it was
    handed.  [AgentChat] carries the dict the agent was built with and the
    dict as it is when the agent starts to speak.  In each, [chat_history]
    is what the list holds when it is handed over. *)

Inductive prog (A : Type) : Type :=
| Ret (a : A)
| Throw (e : exn)
| Input (prompt : string) (k : string -> prog A)
| ContinuationChat (st : gmap string pyval) (msg : string)
    (chat_history : list ChatMessage)
    (k : string -> list ChatMessage -> prog A)
| OrchestrationChat (st : gmap string pyval) (msg : string)
    (chat_history : list ChatMessage)
    (k : string -> list ChatMessage -> prog A)
| AgentChat (who : Speaker) (built_with st : gmap string pyval)
    (msg : string) (chat_history : list ChatMessage)
    (k : agent_reply -> prog A).
Arguments Ret {A} a.
Arguments Throw {A} e.
Arguments Input {A} prompt k.
Arguments ContinuationChat {A} st msg chat_history k.
Arguments OrchestrationChat {A} st msg chat_history k.
Arguments AgentChat {A} who built_with st msg chat_history k.

Fixpoint pbind {A B} (p : prog A) (f : A -> prog B) : prog B :=
  match p with
  | Ret a => f a
  | Throw e => Throw e
  | Input q k => Input q (fun x => pbind (k x) f)
  | ContinuationChat st m h k =>
      ContinuationChat st m h (fun x a => pbind (k x a) f)
  | OrchestrationChat st m h k =>
      OrchestrationChat st m h (fun x a => pbind (k x a) f)
  | AgentChat w b st m h k => AgentChat w b st m h (fun x => pbind (k x) f)
  end.

#[export] Instance prog_ret : MRet prog := @Ret.
#[export] Instance prog_bind : MBind prog := fun A B f p => pbind p f.

Definition input (prompt : string) : prog string := Input prompt Ret.

Definition continuation_chat (st : gmap string pyval) (msg : string)
    (h : list ChatMessage) : prog (string * list ChatMessage) :=
  ContinuationChat st msg h (fun said appended => Ret (said, appended)).

Definition orchestration_chat (st : gmap string pyval) (msg : string)
    (h : list ChatMessage) : prog (string * list ChatMessage) :=
  OrchestrationChat st msg h (fun said appended => Ret (said, appended)).

Definition agent_chat (who : Speaker) (built_with st : gmap string pyval)
    (msg : string) (h : list ChatMessage) : prog agent_reply :=
  AgentChat who built_with st msg h Ret.

(** [state[key]] read by the loop *)
Definition item (st : gmap string pyval) (key : string) : prog pyval :=
  match st !! key with
  | Some v => Ret v
  | None => Throw (KeyError key)
  end.

(** The locals of [run] that live across iterations.  [root_memory] is
    what the list stored in the buffer holds, [current_history] what the
    list bound to that name holds, unbound until the first assignment to
    it.  [shared] tells that the two are one list object: so it is from
    [root_memory.set(new_history)] to the next [root_memory.get()]. *)
Record loop_vars : Type :=
  { state : gmap string pyval;
    root_memory : list ChatMessage;
    first_run : bool;
    is_retry : bool;
    should_continue : bool;
    current_history : option (list ChatMessage);
    shared : bool }.

Definition initial_vars : loop_vars :=
  {| state := get_initial_state;
     root_memory := [];
     first_run := true;
     is_retry := false;
     should_continue := true;
     current_history := None;
     shared := false |}.

Definition greeting : string := "Hello there!".
Definition clarification : string :=
  "That's not right, try again. Pick one agent.".
Definition no_further_task : string := "no_further_task".

(** The request to the continuation agent, without its line breaks and
    without the quotation marks around the sentinel. *)
Definition continuation_request : string :=
  "Look at the chat history to date and figure out what the user was originally trying to do. They might have had to do some sub-tasks to complete that task, but what we want is the original thing they started out trying to do. Formulate a sentence as if written by the user that asks to continue that task. If it seems like the user really completed their task, output no_further_task only.".

(** [input(prompt).strip()] followed by the test for [exit]: the
    utterance and the new value of [should_continue]. *)
Definition ask_user (prompt : string) (should_continue : bool)
  : prog (string * bool) :=
  line ← input prompt;
  let user_msg_str := strip line in
  if String.eqb (lower user_msg_str) "exit"
  then mret (user_msg_str, false)
  else mret (user_msg_str, should_continue).

(** Lines 213-240: this turn's utterance.  The chat of the continuation
    agent appends to the list bound to [current_history], which is the
    stored log too when the two are one object. *)
Definition utterance (lv : loop_vars) : prog (string * loop_vars) :=
  if first_run lv then
    mret (greeting,
          {| state := state lv; root_memory := root_memory lv;
             first_run := false; is_retry := is_retry lv;
             should_continue := should_continue lv;
             current_history := current_history lv;
             shared := shared lv |})
  else if is_retry lv then
    mret (clarification,
          {| state := state lv; root_memory := root_memory lv;
             first_run := first_run lv; is_retry := false;
             should_continue := should_continue lv;
             current_history := current_history lv;
             shared := shared lv |})
  else
    just_finished ← item (state lv) "just_finished";
    if eq_True just_finished then
      h ← match current_history lv with
          | Some h => mret h
          | None => Throw (UnboundLocalError "current_history")
          end;
      '(said, appended) ← continuation_chat (state lv) continuation_request h;
      '(user_msg_str, continue) ←
        (if String.eqb said no_further_task
         then ask_user ">> " (should_continue lv)
         else mret (said, should_continue lv));
      mret (user_msg_str,
            {| state := <["just_finished" := PBool false]> (state lv);
               root_memory :=
                 if shared lv then h ++ appended else root_memory lv;
               first_run := first_run lv; is_retry := is_retry lv;
               should_continue := continue;
               current_history := Some (h ++ appended);
               shared := shared lv |})
    else
      '(user_msg_str, continue) ← ask_user "> " (should_continue lv);
      mret (user_msg_str,
            {| state := state lv; root_memory := root_memory lv;
               first_run := first_run lv; is_retry := is_retry lv;
               should_continue := continue;
               current_history := current_history lv;
               shared := shared lv |}).

(** Lines 244-250: who should speak next, and what the list handed to
    the orchestration agent holds afterwards. *)
Definition resolve_speaker (st : gmap string pyval) (user_msg_str : string)
    (h : list ChatMessage) : prog (pyval * list ChatMessage) :=
  current ← item st "current_speaker";
  if truthy current then mret (current, h)
  else
    '(orchestration_response, appended) ←
      orchestration_chat st user_msg_str h;
    mret (PStr (strip orchestration_response), h ++ appended).

(** Lines 254-272: the agent for [next_speaker] and the dict after the
    branch taken, or nothing when no branch matches. *)
Definition dispatch (next_speaker : pyval) (st : gmap string pyval)
  : option (Speaker * gmap string pyval) :=
  if eq_str next_speaker (value Data_pre_processing) then
    Some (Data_pre_processing, <["current_speaker" := next_speaker]> st)
  else if eq_str next_speaker (value Indexing) then
    Some (Indexing, <["current_speaker" := next_speaker]> st)
  else if eq_str next_speaker (value Generation) then
    Some (Generation, <["current_speaker" := next_speaker]> st)
  else if eq_str next_speaker (value Concierge) then
    Some (Concierge, st)
  else None.

Section Loop.

(** [ChatMemoryBuffer.get]: the view of the stored log that fits the
    token limit of the buffer.  The buffer is library code. *)
Variable buffer_get : list ChatMessage -> list ChatMessage.

(** Lines 241-284: bind [current_history] to a fresh list with the view
    of the log, resolve the speaker, dispatch, let the agent speak and
    store its list as the log; or flag a retry.  Router and agent are
    handed the one list, and each appends to it. *)
Definition turn (user_msg_str : string) (lv : loop_vars) : prog loop_vars :=
  let h := buffer_get (root_memory lv) in
  '(next_speaker, h1) ← resolve_speaker (state lv) user_msg_str h;
  match dispatch next_speaker (state lv) with
  | Some (who, st) =>
      reply ← agent_chat who (state lv) st user_msg_str h1;
      mret {| state := apply_calls who (calls reply) st;
              root_memory := h1 ++ added reply;
              first_run := first_run lv; is_retry := is_retry lv;
              should_continue := should_continue lv;
              current_history := Some (h1 ++ added reply);
              shared := true |}
  | None =>
      mret {| state := state lv; root_memory := root_memory lv;
              first_run := first_run lv; is_retry := true;
              should_continue := should_continue lv;
              current_history := Some h1;
              shared := false |}
  end.

(** The body of the [while] loop. *)
Definition body (lv : loop_vars) : prog loop_vars :=
  '(user_msg_str, lv1) ← utterance lv;
  turn user_msg_str lv1.

(** [while should_continue: body], cut off after [fuel] iterations
    ([None]: the session is still going). *)
Fixpoint while (fuel : nat) (lv : loop_vars) : prog (option loop_vars) :=
  if should_continue lv then
    match fuel with
    | O => mret None
    | S fuel' => lv' ← body lv; while fuel' lv'
    end
  else mret (Some lv).

Definition run (fuel : nat) : prog (option loop_vars) :=
  while fuel initial_vars.

End Loop.

(** ** Running a tree against its collaborators *)

(** The [n]-th interaction of a session is answered by the collaborator
    it addresses. *)
Record oracle : Type :=
  { console : nat -> string;
    continuation_agent : nat -> string;
    continuation_added : nat -> list ChatMessage;
    orchestration_agent : nat -> string;
    orchestration_added : nat -> list ChatMessage;
    task_agent : nat -> agent_reply }.

Inductive event : Type :=
| EInput (prompt line : string)
| EContinuation (st : gmap string pyval) (msg : string)
    (chat_history : list ChatMessage) (said : string)
| EOrchestration (st : gmap string pyval) (msg : string)
    (chat_history : list ChatMessage) (said : string)
| EAgent (who : Speaker) (built_with st : gmap string pyval) (msg : string)
    (chat_history : list ChatMessage) (reply : agent_reply).

Fixpoint exec {A} (o : oracle) (n : nat) (p : prog A)
  : list event * result A * nat :=
  match p with
  | Ret a => ([], Ok a, n)
  | Throw e => ([], Raised e, n)
  | Input q k =>
      let x := console o n in
      let '(t, r, n') := exec o (S n) (k x) in
      (EInput q x :: t, r, n')
  | ContinuationChat st m h k =>
      let x := continuation_agent o n in
      let '(t, r, n') := exec o (S n) (k x (continuation_added o n)) in
      (EContinuation st m h x :: t, r, n')
  | OrchestrationChat st m h k =>
      let x := orchestration_agent o n in
      let '(t, r, n') := exec o (S n) (k x (orchestration_added o n)) in
      (EOrchestration st m h x :: t, r, n')
  | AgentChat w b st m h k =>
      let x := task_agent o n in
      let '(t, r, n') := exec o (S n) (k x) in
      (EAgent w b st m h x :: t, r, n')
  end.

Definition trace_of {A} (x : list event * result A * nat) : list event :=
  fst (fst x).
Definition result_of {A} (x : list event * result A * nat) : result A :=
  snd (fst x).

Definition is_input (e : event) : bool :=
  match e with EInput _ _ => true | _ => false end.
Definition is_continuation (e : event) : bool :=
  match e with EContinuation _ _ _ _ => true | _ => false end.
Definition is_orchestration (e : event) : bool :=
  match e with EOrchestration _ _ _ _ => true | _ => false end.
Definition is_agent (e : event) : bool :=
  match e with EAgent _ _ _ _ _ _ => true | _ => false end.

(** The values of the loop variables at the head of the [while] loop, over
    all sessions. *)
Inductive reachable (buffer_get : list ChatMessage -> list ChatMessage)
  : loop_vars -> Prop :=
| reach_init : reachable buffer_get initial_vars
| reach_step lv o n t lv' n' :
    reachable buffer_get lv ->
    should_continue lv = true ->
    exec o n (body buffer_get lv) = (t, Ok lv', n') ->
    reachable buffer_get lv'.

(** The identifiers the dispatch step has a branch for. *)
Definition dispatchable : list string :=
  [value Data_pre_processing; value Indexing; value Generation;
   value Concierge].

(** The agents that hold the floor once dispatched. *)
Definition sticky : list Speaker := [Data_pre_processing; Indexing; Generation].

(** A value the spec calls null or empty. *)
Definition null_or_empty (v : pyval) : Prop := v = PNone ∨ v = PStr "".

(** A setter that refuses null and empty values: it answers false, leaves
    an unset field unset and never clears a field that was set. *)
Definition keeps_field_unset (setter : pyval -> tool bool) (field : string)
  : Prop :=
  ∀ v st, null_or_empty v →
    fst (setter v st) = Ok false ∧
    (st !! field = Some PNone → snd (setter v st) !! field = Some PNone) ∧
    (∀ w, st !! field = Some w → w ≠ PNone →
          snd (setter v st) !! field = Some w).

(** What the loop and the tools can leave in [current_speaker]: nothing,
    or the identifier of a sticky agent. *)
Definition speaker_ok (st : gmap string pyval) : Prop :=
  st !! "current_speaker" = Some PNone ∨
  ∃ who, who ∈ sticky ∧ st !! "current_speaker" = Some (PStr (value who)).

(** What holds of the loop variables at the head of every iteration. *)
Record inv (lv : loop_vars) : Prop :=
  { inv_speaker : speaker_ok (state lv);
    inv_finished : ∃ b, state lv !! "just_finished" = Some (PBool b);
    inv_history : first_run lv = false → is_Some (current_history lv);
    inv_first : first_run lv = true → is_retry lv = false;
    inv_fresh :
      first_run lv = true ∨ is_retry lv = true →
      state lv !! "just_finished" = Some (PBool false);
    inv_log :
      state lv !! "just_finished" = Some (PBool true) →
      current_history lv = Some (root_memory lv) }.

(** What holds when the loop reaches the resolution of the speaker. *)
Record at_turn (lv : loop_vars) : Prop :=
  { turn_speaker : speaker_ok (state lv);
    turn_finished : state lv !! "just_finished" = Some (PBool false);
    turn_first : first_run lv = false;
    turn_retry : is_retry lv = false }.

(** Whether an agent turn of the trace called a completion action. *)
Definition completion_in (t : list event) : bool :=
  existsb (fun e => match e with
                    | EAgent who _ _ _ _ reply =>
                        signals_completion who (calls reply)
                    | _ => false
                    end) t.

(** ** Reading a trace *)

Inductive step : Type :=
| Asked_user (line : string)
| Asked_continuation (chat_history : list ChatMessage)
| Asked_router (msg : string)
| Spoke (who : Speaker) (msg : string).

Definition outline (e : event) : step :=
  match e with
  | EInput _ line => Asked_user line
  | EContinuation _ _ h _ => Asked_continuation h
  | EOrchestration _ msg _ _ => Asked_router msg
  | EAgent who _ _ msg _ _ => Spoke who msg
  end.

(** ** Sample sessions *)

Module Session.

Definition hello : ChatMessage :=
  {| role := "user"; content := "Hello there!" |}.
Definition saved : ChatMessage :=
  {| role := "assistant"; content := "The nodes are saved." |}.

(** The message a chat appends for its answer. *)
Definition said (answer : string) : ChatMessage :=
  {| role := "assistant"; content := answer |}.

Definition quiet : agent_reply :=
  {| calls := []; response := "How can I help?";
     added := [hello; said "How can I help?"] |}.

(** The preprocessing agent records a directory and keeps the floor. *)
Definition collecting : agent_reply :=
  {| calls := [pre_has_input_dir (PStr "/docs")];
     response := "Which chunk size?";
     added := [hello; said "Which chunk size?"] |}.

(** The preprocessing agent finishes within its first turn. *)
Definition finishing : agent_reply :=
  {| calls := [pre_has_input_dir (PStr "/docs"); pre_process_documents (Ok tt);
               pre_done];
     response := "The nodes are saved.";
     added := [hello; saved] |}.

Definition session (user continuation router : string) (agent : agent_reply)
  : oracle :=
  {| console := fun _ => user;
     continuation_agent := fun _ => continuation;
     continuation_added := fun _ => [said continuation];
     orchestration_agent := fun _ => router;
     orchestration_added := fun _ => [said router];
     task_agent := fun _ => agent |}.

(** The router answers with a string that names no agent. *)
Definition confused : oracle := session "hi" "" "banana" quiet.

(** The router answers with a member of [Speaker] that is not dispatched. *)
Definition to_retriever : oracle := session "hi" "" " retriever " quiet.

(** The user is sent to the concierge and then types exit. *)
Definition leaving : oracle := session " Exit " "" "Concierge" quiet.

Definition preprocessing : oracle :=
  session "hi" "" "data_pre_processing" collecting.

(** The continuation agent pads the sentinel with white space. *)
Definition padded : oracle :=
  session "hi" " no_further_task " " data_pre_processing " finishing.

(** The continuation agent answers with the bare sentinel. *)
Definition bare : oracle :=
  session "hi" "no_further_task" " data_pre_processing " finishing.

(** The loop variables after the first iteration of a session. *)
Definition after_first (o : oracle) : loop_vars :=
  match result_of (exec o 0 (body id initial_vars)) with
  | Ok lv => lv
  | Raised _ => initial_vars
  end.

(** The dict while the generation agent holds the floor. *)
Definition generating : gmap string pyval :=
  <["current_speaker" := PStr (value Generation)]> get_initial_state.

End Session.

(** ** The document pipeline of [document_pre_processing_agent.py] *)

(** The three text steps are modelled for ASCII text, where [\s] is
    [is_space], [\w] is [is_word] and [lower] is [str.lower].  On other
    text the code follows the Unicode tables; the functions below let the
    bytes above the ASCII range through and say nothing of it, so every
    statement about them is made for ASCII text ([ascii_text]). *)
Module DocumentPipeline.

Definition is_ascii (c : ascii) : bool := (nat_of_ascii c <? 128)%nat.

Definition is_word (c : ascii) : bool :=
  let n := nat_of_ascii c in
  (((48 <=? n) && (n <=? 57)) || ((65 <=? n) && (n <=? 90)) || (n =? 95)
   || ((97 <=? n) && (n <=? 122)))%nat.

Definition ascii_text (s : string) : Prop :=
  Forall (fun c => is_ascii c = true) (list_ascii_of_string s).

(** [re.sub(r'\s+', ' ', s)]: every maximal run of white space becomes
    one blank.  [in_run] tells that the previous character was white. *)
Fixpoint collapse_from (in_run : bool) (s : string) : string :=
  match s with
  | EmptyString => EmptyString
  | String c s' =>
      if is_space c then
        if in_run then collapse_from true s'
        else String " " (collapse_from true s')
      else String c (collapse_from false s')
  end.

Definition collapse_whitespace (s : string) : string := collapse_from false s.

(** [re.sub(r'[^\w\s]', '', s)] *)
Fixpoint remove_punctuation (s : string) : string :=
  match s with
  | EmptyString => EmptyString
  | String c s' =>
      if is_word c || is_space c || negb (is_ascii c)
      then String c (remove_punctuation s')
      else remove_punctuation s'
  end.

(** The three steps applied to the content of a document. *)
Definition transform_content (s : string) : string :=
  remove_punctuation (collapse_whitespace (lower s)).

Record Document : Type := { text : string; metadata : pyval }.

(** The parameters an instance of [preprocess_docs] holds. *)
Record preprocess_docs : Type :=
  { input_dir : pyval; chunk_size : pyval; chunk_overlap : pyval }.

(** [state.get(key)] *)
Definition dict_get (st : gmap string pyval) (key : string) : pyval :=
  default PNone (st !! key).

(** [preprocess_docs(state)] *)
Definition init (st : gmap string pyval) : preprocess_docs :=
  {| input_dir := dict_get st "input_dir";
     chunk_size := dict_get st "chunk_size";
     chunk_overlap := dict_get st "chunk_overlap" |}.

Section Executors.

(** The directory reader and the sentence splitter are library code:
    what they give for their arguments, or the exception they raise. *)
Variable Node : Type.
Variable load_data : pyval -> result (list Document).
Variable get_nodes_from_documents :
  list Document -> pyval -> pyval -> result (list Node).

(** The calls made to the world outside, in order. *)
Inductive executor_call : Type :=
| Loaded (dir : pyval)
| Split (documents : list Document) (size overlap : pyval)
| Saved (nodes : list Node).

Definition documents_transformation (dir : pyval)
  : list executor_call * result (list Document) :=
  ([Loaded dir],
   match load_data dir with
   | Ok documents =>
       Ok (map (fun doc => {| text := transform_content (text doc);
                              metadata := metadata doc |}) documents)
   | Raised e => Raised e
   end).

(** The splitter runs inside [try]; any exception gives the empty list. *)
Definition split_documents_into_nodes (documents : list Document)
    (size overlap : pyval) : list executor_call * list Node :=
  ([Split documents size overlap],
   match get_nodes_from_documents documents size overlap with
   | Ok nodes => nodes
   | Raised _ => []
   end).

(** The write runs inside [try]; a failure is printed and goes no
    further. *)
Definition save_nodes (nodes : list Node) : list executor_call :=
  [Saved nodes].

Definition process_documents (self : preprocess_docs)
  : list executor_call * result unit :=
  match documents_transformation (input_dir self) with
  | (c1, Ok documents) =>
      let '(c2, nodes) :=
        split_documents_into_nodes documents (chunk_size self)
          (chunk_overlap self) in
      (c1 ++ c2 ++ save_nodes nodes, Ok tt)
  | (c1, Raised e) => (c1, Raised e)
  end.

End Executors.

End DocumentPipeline.

(** ** Reading the argument of a generation tool *)

(** [d[key]] on the value bound to the parameter of a generation tool *)
Fixpoint assoc_get (key : string) (d : list (string * pyval)) : option pyval :=
  match d with
  | [] => None
  | (k, w) :: d' => if String.eqb k key then Some w else assoc_get key d'
  end.

(** ** More ways to read a trace *)

(** Whether the console gave [exit], in any case and between blanks. *)
Definition exit_read (t : list event) : bool :=
  existsb (fun e => match e with
                    | EInput _ line => String.eqb (lower (strip line)) "exit"
                    | _ => false
                    end) t.

(** What an event is while the generation agent holds the floor: a line
    of the console or a turn of the generation agent. *)
Definition console_or_generation (e : event) : Prop :=
  match e with
  | EInput _ _ => True
  | EAgent who _ st _ _ _ =>
      who = Generation ∧
      st !! "current_speaker" = Some (PStr (value Generation))
  | _ => False
  end.

(** What the list of the last agent that spoke in the trace holds when
    its turn is over. *)
Definition adopted_log (t : list event) : option (list ChatMessage) :=
  fold_left (fun acc e => match e with
                          | EAgent _ _ _ _ h reply => Some (h ++ added reply)
                          | _ => acc
                          end) t None.

(** The keys of the dict that the loop or a tool can write. *)
Definition written_keys : list string :=
  ["just_finished"; "current_speaker"; "input_dir"; "chunk_size";
   "chunk_overlap"; "embedding_model"].

(** ** More sample sessions *)

Module Walkthrough.

(** The generation agent calls its completion action at once. *)
Definition answering : agent_reply :=
  {| calls := [gen_generation (PDict []) (GenerationAgent.Answers "answer");
               gen_done (PDict []) (GenerationAgent.Answers "answer")];
     response := "answer";
     added := [Session.hello; Session.said "answer"] |}.

Definition to_generation : oracle :=
  Session.session " exit " "" "generation" answering.

Definition sample : string := "Hello,   World!  A_b-c.".

End Walkthrough.

(** The characters a transformed text is made of: lower-case letters,
    digits, the underscore and the blank. *)
Definition clean_char (c : ascii) : bool :=
  let n := nat_of_ascii c in
  (((48 <=? n) && (n <=? 57)) || (n =? 95) || ((97 <=? n) && (n <=? 122))
   || (n =? 32))%nat.

(** ** Sample executors *)

Module Bench.

(** A reader that finds one document whatever the directory. *)
Definition reader (dir : pyval) : result (list DocumentPipeline.Document) :=
  Ok [{| DocumentPipeline.text := Walkthrough.sample;
         DocumentPipeline.metadata := PDict [("file_name", PStr "a.pdf")] |}].

(** A splitter that rejects its chunk parameters. *)
Definition splitter (documents : list DocumentPipeline.Document)
    (size overlap : pyval) : result (list string) :=
  Raised ExecutorError.

(** The dict once the preprocessing agent has been dispatched from the
    initial state. *)
Definition dispatched : gmap string pyval :=
  <["current_speaker" := PStr (value Data_pre_processing)]> get_initial_state.

End Bench.

(** * Properties *)

(** ** The tool closures *)

Lemma setter_run (field : string) (v : pyval) (st : gmap string pyval) :
  (setitem field v;; w ← getitem field; mret (is_not_None w)) st
  = (Ok (is_not_None v), <[field := v]> st).
Proof.
  unfold mbind, tool_bind, tbind, setitem, getitem, mret, tool_ret, tret.
  by rewrite lookup_insert_eq.
Qed.

Lemma completion_run (st : gmap string pyval) :
  DocumentPreprocessingAgent.done st
  = (Ok tt, <["just_finished" := PBool true]> (<["current_speaker" := PNone]> st)).
Proof. reflexivity. Qed.

Lemma completion_writes_two_fields (st : gmap string pyval) (key : string) :
  key ≠ "current_speaker" → key ≠ "just_finished" →
  snd (DocumentPreprocessingAgent.done st) !! key = st !! key.
Proof.
  intros H1 H2. rewrite completion_run. simpl.
  by rewrite !lookup_insert_ne.
Qed.

Lemma generation_done_shared (arg : pyval)
    (outside : GenerationAgent.executors) (st : gmap string pyval) :
  snd (GenerationAgent.done arg outside st) = st.
Proof. reflexivity. Qed.

(** The shared dict after a tool call, tool by tool. *)
Lemma run_tool_state (c : tool_call) (st : gmap string pyval) :
  snd (run_tool c st) =
  match c with
  | pre_has_input_dir v => <["input_dir" := v]> st
  | pre_has_chunk_size v => <["chunk_size" := v]> st
  | pre_has_chunk_overlap v => <["chunk_overlap" := v]> st
  | idx_has_embedding_model v => <["embedding_model" := v]> st
  | pre_done | idx_done =>
      <["just_finished" := PBool true]> (<["current_speaker" := PNone]> st)
  | pre_process_documents _ | gen_generation _ _ | gen_done _ _
  | dummy_tool => st
  end.
Proof.
  destruct c; simpl; try reflexivity;
    try (unfold forget, DocumentPreprocessingAgent.has_input_dir,
           DocumentPreprocessingAgent.has_chunk_size,
           DocumentPreprocessingAgent.has_chunk_overlap,
           QdrantIndexingAgent.has_embedding_model;
         by rewrite setter_run).
  - unfold forget, GenerationAgent.generation.
    by destruct (GenerationAgent.generation_result _ _).
  - unfold forget, GenerationAgent.done.
    by destruct (fst (GenerationAgent.done_on_argument _ _)).
Qed.

Lemma tool_effect_speaker who st c :
  tool_effect who st c !! "current_speaker"
  = if is_completion who c then Some PNone else st !! "current_speaker".
Proof.
  unfold tool_effect, is_completion.
  destruct (owns who c); simpl; [|reflexivity].
  rewrite run_tool_state. destruct c; by simplify_map_eq.
Qed.

Lemma tool_effect_finished who st c :
  tool_effect who st c !! "just_finished"
  = if is_completion who c then Some (PBool true) else st !! "just_finished".
Proof.
  unfold tool_effect, is_completion.
  destruct (owns who c); simpl; [|reflexivity].
  rewrite run_tool_state. destruct c; by simplify_map_eq.
Qed.

Lemma apply_calls_speaker who cs st :
  apply_calls who cs st !! "current_speaker"
  = if signals_completion who cs then Some PNone else st !! "current_speaker".
Proof.
  unfold apply_calls, signals_completion.
  revert st. induction cs as [|c cs IH]; intros st; simpl; [reflexivity|].
  rewrite IH, tool_effect_speaker.
  destruct (is_completion who c); simpl; by destruct (existsb _ cs).
Qed.

Lemma apply_calls_finished who cs st :
  apply_calls who cs st !! "just_finished"
  = if signals_completion who cs then Some (PBool true)
    else st !! "just_finished".
Proof.
  unfold apply_calls, signals_completion.
  revert st. induction cs as [|c cs IH]; intros st; simpl; [reflexivity|].
  rewrite IH, tool_effect_finished.
  destruct (is_completion who c); simpl; by destruct (existsb _ cs).
Qed.

(** Only a sticky agent has a completion action. *)
Lemma concierge_never_completes cs : signals_completion Concierge cs = false.
Proof.
  unfold signals_completion. induction cs as [|c cs IH]; simpl; [done|].
  rewrite IH. unfold is_completion. by destruct c.
Qed.

(** ** The interpreter *)

Lemma exec_bind {A B} (o : oracle) (p : prog A) (f : A -> prog B) n :
  exec o n (p ≫= f) =
  match exec o n p with
  | (t, Ok a, n1) =>
      let '(t2, r, n2) := exec o n1 (f a) in (t ++ t2, r, n2)
  | (t, Raised e, n1) => (t, Raised e, n1)
  end.
Proof.
  unfold mbind, prog_bind. revert n.
  induction p as [a|e|q k IH|st m h k IH|st m h k IH|w b st m h k IH];
    intros n; simpl.
  - by destruct (exec o n (f a)) as [[? ?] ?].
  - reflexivity.
  - rewrite IH. destruct (exec o (S n) (k _)) as [[t [a|e]] n1]; simpl;
      [by destruct (exec o n1 (f a)) as [[? ?] ?]|done].
  - rewrite IH. destruct (exec o (S n) (k _ _)) as [[t [a|e]] n1]; simpl;
      [by destruct (exec o n1 (f a)) as [[? ?] ?]|done].
  - rewrite IH. destruct (exec o (S n) (k _ _)) as [[t [a|e]] n1]; simpl;
      [by destruct (exec o n1 (f a)) as [[? ?] ?]|done].
  - rewrite IH. destruct (exec o (S n) (k _)) as [[t [a|e]] n1]; simpl;
      [by destruct (exec o n1 (f a)) as [[? ?] ?]|done].
Qed.

(** ** White space *)

(** [strip] on white space outside the ASCII range: a no-break space after
    the name of the concierge, an ideographic space before [Exit]; a
    zero-width space is no white space. *)
Lemma strip_wide_spaces :
  strip ("Concierge" ++ bytes [194; 160]%nat) = "Concierge" ∧
  lower (strip (bytes [227; 128; 128]%nat ++ "Exit ")) = "exit" ∧
  strip (bytes [226; 128; 139]%nat) = bytes [226; 128; 139]%nat.
Proof. repeat split; vm_compute; reflexivity. Qed.

(** ** The dispatch step *)

Ltac string_cases :=
  repeat match goal with
         | |- context [String.eqb ?a ?b] =>
             destruct (String.eqb_spec a b) as [->|?]
         end.

Lemma dispatch_sticky who st :
  who ∈ sticky →
  dispatch (PStr (value who)) st
  = Some (who, <["current_speaker" := PStr (value who)]> st).
Proof.
  intros H. unfold sticky in H. decompose_list_elem_of; subst; reflexivity.
Qed.

Lemma dispatch_Some ns st who st' :
  dispatch ns st = Some (who, st') →
  ns = PStr (value who) ∧
  (who ∈ sticky ∧ st' = <["current_speaker" := ns]> st ∨
   who = Concierge ∧ st' = st).
Proof.
  unfold dispatch, eq_str. destruct ns as [| | |s| |]; try discriminate.
  string_cases; try discriminate.
  all: intros H; simplify_eq.
  all: split; [reflexivity|].
  all: try (left; split; [set_solver|reflexivity]).
  right. done.
Qed.

Lemma dispatch_None_iff s st :
  dispatch (PStr s) st = None ↔ s ∉ dispatchable.
Proof.
  unfold dispatch, eq_str, dispatchable. simpl.
  string_cases.
  1-4: split; [discriminate|intros H; exfalso; apply H; set_solver].
  split; [intros _|done].
  intros H. decompose_list_elem_of; done.
Qed.

Lemma dispatch_None_any_state ns st st' :
  dispatch ns st = None → dispatch ns st' = None.
Proof.
  unfold dispatch.
  by repeat match goal with |- context [eq_str ?a ?b] => destruct (eq_str a b) end.
Qed.

(** ** The utterance step, branch by branch *)

Lemma utterance_first lv o n :
  first_run lv = true →
  exec o n (utterance lv) =
  ([], Ok (greeting,
           {| state := state lv; root_memory := root_memory lv;
              first_run := false; is_retry := is_retry lv;
              should_continue := should_continue lv;
              current_history := current_history lv;
              shared := shared lv |}), n).
Proof. intros H. unfold utterance. by rewrite H. Qed.

Lemma utterance_retry lv o n :
  first_run lv = false → is_retry lv = true →
  exec o n (utterance lv) =
  ([], Ok (clarification,
           {| state := state lv; root_memory := root_memory lv;
              first_run := first_run lv; is_retry := false;
              should_continue := should_continue lv;
              current_history := current_history lv;
              shared := shared lv |}), n).
Proof. intros H1 H2. unfold utterance. by rewrite H1, H2. Qed.

Lemma utterance_continuation lv o n jf h :
  first_run lv = false → is_retry lv = false →
  state lv !! "just_finished" = Some jf → eq_True jf = true →
  current_history lv = Some h →
  exec o n (utterance lv) =
  let said := continuation_agent o n in
  let log := h ++ continuation_added o n in
  let line := console o (S n) in
  let asked := String.eqb said no_further_task in
  (EContinuation (state lv) continuation_request h said ::
     (if asked then [EInput ">> " line] else []),
   Ok (if asked then strip line else said,
       {| state := <["just_finished" := PBool false]> (state lv);
          root_memory := if shared lv then log else root_memory lv;
          first_run := first_run lv; is_retry := is_retry lv;
          should_continue :=
            if asked && String.eqb (lower (strip line)) "exit" then false
            else should_continue lv;
          current_history := Some log;
          shared := shared lv |}),
   if asked then S (S n) else S n).
Proof.
  intros H1 H2 H3 H4 H5. unfold utterance, item. rewrite H1, H2, H3. simpl.
  rewrite H4, H5. simpl.
  destruct (String.eqb (continuation_agent o n) no_further_task); simpl;
    [|reflexivity].
  by destruct (String.eqb (lower (strip (console o (S n)))) "exit").
Qed.

Lemma utterance_direct lv o n jf :
  first_run lv = false → is_retry lv = false →
  state lv !! "just_finished" = Some jf → eq_True jf = false →
  exec o n (utterance lv) =
  let line := console o n in
  ([EInput "> " line],
   Ok (strip line,
       {| state := state lv; root_memory := root_memory lv;
          first_run := first_run lv; is_retry := is_retry lv;
          should_continue :=
            if String.eqb (lower (strip line)) "exit" then false
            else should_continue lv;
          current_history := current_history lv;
          shared := shared lv |}),
   S n).
Proof.
  intros H1 H2 H3 H4. unfold utterance, item. rewrite H1, H2, H3. simpl.
  rewrite H4. simpl.
  by destruct (String.eqb (lower (strip (console o n))) "exit").
Qed.

Section LoopFacts.

Variable buffer_get : list ChatMessage -> list ChatMessage.

(** ** The turn step *)

(** What follows the resolution of the speaker. *)
Lemma turn_sticky msg lv o n cur :
  state lv !! "current_speaker" = Some cur → truthy cur = true →
  exec o n (turn buffer_get msg lv) =
  let h := buffer_get (root_memory lv) in
  match dispatch cur (state lv) with
  | Some (who, st) =>
      let reply := task_agent o n in
      ([EAgent who (state lv) st msg h reply],
       Ok {| state := apply_calls who (calls reply) st;
             root_memory := h ++ added reply;
             first_run := first_run lv; is_retry := is_retry lv;
             should_continue := should_continue lv;
             current_history := Some (h ++ added reply);
             shared := true |}, S n)
  | None =>
      ([], Ok {| state := state lv; root_memory := root_memory lv;
                 first_run := first_run lv; is_retry := true;
                 should_continue := should_continue lv;
                 current_history := Some h;
                 shared := false |}, n)
  end.
Proof.
  intros H1 H2. unfold turn, resolve_speaker, item. rewrite H1. simpl.
  rewrite H2. simpl. by destruct (dispatch cur (state lv)) as [[who st]|].
Qed.

Lemma turn_routed msg lv o n cur :
  state lv !! "current_speaker" = Some cur → truthy cur = false →
  exec o n (turn buffer_get msg lv) =
  let h := buffer_get (root_memory lv) in
  let said := orchestration_agent o n in
  let h1 := h ++ orchestration_added o n in
  match dispatch (PStr (strip said)) (state lv) with
  | Some (who, st) =>
      let reply := task_agent o (S n) in
      ([EOrchestration (state lv) msg h said;
        EAgent who (state lv) st msg h1 reply],
       Ok {| state := apply_calls who (calls reply) st;
             root_memory := h1 ++ added reply;
             first_run := first_run lv; is_retry := is_retry lv;
             should_continue := should_continue lv;
             current_history := Some (h1 ++ added reply);
             shared := true |}, S (S n))
  | None =>
      ([EOrchestration (state lv) msg h said],
       Ok {| state := state lv; root_memory := root_memory lv;
             first_run := first_run lv; is_retry := true;
             should_continue := should_continue lv;
             current_history := Some h1;
             shared := false |}, S n)
  end.
Proof.
  intros H1 H2. unfold turn, resolve_speaker, item. rewrite H1. simpl.
  rewrite H2. simpl.
  by destruct (dispatch (PStr (strip (orchestration_agent o n))) (state lv))
    as [[who st]|].
Qed.

Lemma exec_body lv o n :
  exec o n (body buffer_get lv) =
  match exec o n (utterance lv) with
  | (t, Ok (msg, lv1), n1) =>
      let '(t2, r, n2) := exec o n1 (turn buffer_get msg lv1) in
      (t ++ t2, r, n2)
  | (t, Raised e, n1) => (t, Raised e, n1)
  end.
Proof.
  unfold body. rewrite exec_bind.
  by destruct (exec o n (utterance lv)) as [[t [[msg lv1]|e]] n1].
Qed.

(** ** The invariant of the loop *)

Lemma inv_initial : inv initial_vars.
Proof.
  split; simpl; try done.
  - by left.
  - by exists false.
Qed.

(** From the head of an iteration to the resolution of the speaker. *)
Lemma utterance_inv lv o n :
  inv lv →
  ∃ t msg lv1 n1,
    exec o n (utterance lv) = (t, Ok (msg, lv1), n1) ∧
    at_turn lv1 ∧
    state lv1 !! "current_speaker" = state lv !! "current_speaker" ∧
    Forall (fun e => is_orchestration e = false ∧ is_agent e = false) t.
Proof.
  intros [Hs [b Hf] Hh H1 Hfr _].
  destruct (first_run lv) eqn:Efirst.
  { rewrite utterance_first by done. eexists _, _, _, _.
    split; [reflexivity|]. split; [|by split].
    split; simpl; auto. }
  destruct (is_retry lv) eqn:Eretry.
  { rewrite utterance_retry by done. eexists _, _, _, _.
    split; [reflexivity|]. split; [|by split].
    split; simpl; auto. }
  destruct b.
  - destruct (Hh eq_refl) as [h Hh'].
    rewrite (utterance_continuation lv o n (PBool true) h) by done.
    eexists _, _, _, _. split; [reflexivity|]. simpl. split; [|split].
    + split; simpl; auto.
      * destruct Hs as [Hs|[who [Hw Hs]]]; [left|right; exists who; split; [done|]];
          by rewrite lookup_insert_ne.
      * by rewrite lookup_insert_eq.
    + by rewrite lookup_insert_ne.
    + destruct (String.eqb _ no_further_task); repeat constructor.
  - rewrite (utterance_direct lv o n (PBool false)) by done.
    eexists _, _, _, _. split; [reflexivity|]. simpl. split; [|split]; [|done|].
    + split; simpl; auto.
    + repeat constructor.
Qed.

(** A sticky speaker is dispatched without a question to the router. *)
Lemma turn_of_sticky msg lv o n who :
  who ∈ sticky →
  state lv !! "current_speaker" = Some (PStr (value who)) →
  exec o n (turn buffer_get msg lv) =
  let h := buffer_get (root_memory lv) in
  let st := <["current_speaker" := PStr (value who)]> (state lv) in
  let reply := task_agent o n in
  ([EAgent who (state lv) st msg h reply],
   Ok {| state := apply_calls who (calls reply) st;
         root_memory := h ++ added reply;
         first_run := first_run lv; is_retry := is_retry lv;
         should_continue := should_continue lv;
         current_history := Some (h ++ added reply);
         shared := true |}, S n).
Proof.
  intros Hw Hs. rewrite (turn_sticky msg lv o n (PStr (value who))); [|done|].
  - by rewrite dispatch_sticky.
  - unfold sticky in Hw. decompose_list_elem_of; by subst.
Qed.

(** From the resolution of the speaker to the head of the next
    iteration. *)
Lemma turn_inv msg lv o n :
  at_turn lv →
  ∃ t lv' n',
    exec o n (turn buffer_get msg lv) = (t, Ok lv', n') ∧
    inv lv' ∧
    state lv' !! "just_finished" = Some (PBool (completion_in t)).
Proof.
  intros [Hs Hf Hfirst Hretry].
  destruct Hs as [Hs|[who [Hw Hs]]].
  - rewrite (turn_routed msg lv o n PNone) by done. simpl.
    destruct (dispatch _ (state lv)) as [[who st]|] eqn:Ed.
    + apply dispatch_Some in Ed as [Hns Ed]. rewrite Hns in Ed.
      eexists _, _, _. split; [reflexivity|]. simpl.
      rewrite orb_false_r.
      assert (st !! "just_finished" = Some (PBool false)) as Hf'.
      { destruct Ed as [[_ ->]|[_ ->]]; [by rewrite lookup_insert_ne|done]. }
      split; [split; simpl|].
      * unfold speaker_ok. rewrite apply_calls_speaker.
        destruct (signals_completion who _) eqn:Ec; [by left|].
        destruct Ed as [[Hw ->]|[-> ->]].
        -- right. exists who. split; [done|]. by rewrite lookup_insert_eq.
        -- by left.
      * rewrite apply_calls_finished.
        destruct (signals_completion who _); eauto.
      * eauto.
      * by rewrite Hfirst.
      * rewrite Hfirst, Hretry. by intros [?|?].
      * done.
      * rewrite apply_calls_finished. by destruct (signals_completion who _).
    + eexists _, _, _. split; [reflexivity|]. simpl. split; [|done].
      split; simpl; eauto; try (by left); try (by rewrite Hfirst).
      rewrite Hf. discriminate.
  - rewrite (turn_of_sticky msg lv o n who) by done. simpl.
    eexists _, _, _. split; [reflexivity|]. simpl. rewrite orb_false_r.
    split; [split; simpl|].
    + unfold speaker_ok. rewrite apply_calls_speaker.
      destruct (signals_completion who _); [by left|].
      right. exists who. split; [done|]. by rewrite lookup_insert_eq.
    + rewrite apply_calls_finished, lookup_insert_ne by done.
      destruct (signals_completion who _); eauto.
    + eauto.
    + by rewrite Hfirst.
    + rewrite Hfirst, Hretry. by intros [?|?].
    + done.
    + rewrite apply_calls_finished, lookup_insert_ne by done.
      by destruct (signals_completion who _).
Qed.

Lemma body_inv lv o n :
  inv lv →
  ∃ t lv' n', exec o n (body buffer_get lv) = (t, Ok lv', n') ∧ inv lv'.
Proof.
  intros Hi. rewrite exec_body.
  destruct (utterance_inv lv o n Hi) as (t & msg & lv1 & n1 & -> & Ht & _).
  destruct (turn_inv msg lv1 o n1 Ht) as (t2 & lv' & n' & -> & Hi' & _).
  eauto.
Qed.

Lemma reachable_inv lv : reachable buffer_get lv → inv lv.
Proof.
  induction 1 as [|lv o n t lv' n' _ IH _ He]; [apply inv_initial|].
  destruct (body_inv lv o n IH) as (t' & lv'' & n'' & He' & Hi).
  rewrite He in He'. by simplify_eq.
Qed.

(** ** Sticky routing *)

(** Claim C1.  In every iteration of [run], when [current_speaker] is not
    null at the resolution of the speaker, the orchestration agent is not
    asked and the agent that speaks is the one [current_speaker] names;
    the orchestration agent is asked only when [current_speaker] is
    null. *)
Theorem sticky_speaker_skips_router lv o n cur :
  reachable buffer_get lv →
  state lv !! "current_speaker" = Some cur →
  let t := trace_of (exec o n (body buffer_get lv)) in
  (cur ≠ PNone →
   (∀ e, e ∈ t → is_orchestration e = false) ∧
   ∃ who built st msg h reply,
     EAgent who built st msg h reply ∈ t ∧
     built !! "current_speaker" = Some cur ∧
     cur = PStr (value who) ∧
     st !! "current_speaker" = Some cur) ∧
  (∀ st msg h said,
     EOrchestration st msg h said ∈ t →
     cur = PNone ∧ st !! "current_speaker" = Some PNone).
Proof.
  intros Hr Hcur. apply reachable_inv in Hr.
  destruct (utterance_inv lv o n Hr) as (t1 & msg & lv1 & n1 & He & Ht & Hs & Hno).
  rewrite exec_body, He. rewrite Hcur in Hs.
  rewrite Forall_forall in Hno.
  destruct (turn_speaker _ Ht) as [Hn|[who [Hw Hn]]].
  - (* nobody holds the floor *)
    rewrite Hn in Hs. injection Hs as <-.
    rewrite (turn_routed msg lv1 o n1 PNone) by done.
    split; [done|]. intros st m h said Hin. split; [done|].
    cbv zeta in Hin.
    destruct (dispatch _ (state lv1)) as [[w st']|]; unfold trace_of in Hin;
      simpl in Hin; apply elem_of_app in Hin as [Hin|Hin];
      try (apply Hno in Hin as [Hin _]; discriminate);
      decompose_list_elem_of; by simplify_eq.
  - (* a sticky agent holds the floor *)
    rewrite Hn in Hs. injection Hs as <-.
    rewrite (turn_of_sticky msg lv1 o n1 who) by done.
    unfold trace_of. simpl. split.
    + intros _. split.
      * intros e Hin. apply elem_of_app in Hin as [Hin|Hin];
          [by apply Hno in Hin as [? _]|].
        decompose_list_elem_of. by subst.
      * eexists who, _, _, _, _, _. split; [apply elem_of_app; right; left|].
        split; [done|]. split; [done|]. by rewrite lookup_insert_eq.
    + intros st m h said Hin. apply elem_of_app in Hin as [Hin|Hin].
      * apply Hno in Hin as [Hin _]. discriminate.
      * decompose_list_elem_of. discriminate.
Qed.

(** ** The retry edge *)

(** The utterance step asks neither the router nor a task agent, and
    touches at most [just_finished] in the shared dict. *)
Lemma utterance_shape lv o n :
  let '(t, r, _) := exec o n (utterance lv) in
  Forall (fun e => is_orchestration e = false ∧ is_agent e = false) t ∧
  match r with
  | Ok (_, lv1) =>
      first_run lv1 = false ∧
      state lv1 !! "current_speaker" = state lv !! "current_speaker"
  | Raised _ => True
  end.
Proof.
  unfold utterance, item.
  destruct (first_run lv) eqn:E1; simpl; [by repeat constructor|].
  destruct (is_retry lv) eqn:E2; simpl; [by repeat constructor|].
  destruct (state lv !! "just_finished") as [jf|]; simpl;
    [|by repeat constructor].
  destruct (eq_True jf); simpl.
  - destruct (current_history lv) as [h|]; simpl; [|by repeat constructor].
    destruct (String.eqb _ no_further_task); simpl.
    + destruct (String.eqb (lower _) "exit"); simpl;
        rewrite lookup_insert_ne by done; by repeat constructor.
    + rewrite lookup_insert_ne by done. by repeat constructor.
  - destruct (String.eqb (lower _) "exit"); simpl; by repeat constructor.
Qed.

(** An answer of the router that no branch of the dispatch matches ends
    the iteration at once: no agent speaks, the dict is the one the router
    was shown, and the retry flag is up. *)
Lemma retry_edge lv o n st msg h said :
  EOrchestration st msg h said ∈ trace_of (exec o n (body buffer_get lv)) →
  dispatch (PStr (strip said)) st = None →
  ∃ lv',
    result_of (exec o n (body buffer_get lv)) = Ok lv' ∧
    state lv' = st ∧
    is_retry lv' = true ∧
    first_run lv' = false ∧
    (∃ cur, st !! "current_speaker" = Some cur ∧ truthy cur = false) ∧
    ∀ e, e ∈ trace_of (exec o n (body buffer_get lv)) → is_agent e = false.
Proof.
  rewrite exec_body. pose proof (utterance_shape lv o n) as Hu.
  destruct (exec o n (utterance lv)) as [[t1 [[m lv1]|e]] n1];
    destruct Hu as [Hno Hu]; rewrite Forall_forall in Hno.
  2:{ unfold trace_of; simpl. intros Hin. by apply Hno in Hin as [? _]. }
  destruct Hu as (Hfirst & _).
  unfold turn at 1 2 3, resolve_speaker, item.
  destruct (state lv1 !! "current_speaker") as [cur|] eqn:Ecur; simpl.
  2:{ unfold trace_of; simpl. rewrite app_nil_r. intros Hin.
      by apply Hno in Hin as [? _]. }
  destruct (truthy cur) eqn:Etr; simpl.
  { destruct (dispatch cur (state lv1)) as [[w st']|]; unfold trace_of; simpl;
      intros Hin; apply elem_of_app in Hin as [Hin|Hin];
      try (by apply Hno in Hin as [? _]); decompose_list_elem_of; done. }
  destruct (dispatch _ (state lv1)) as [[w st']|] eqn:Ed; unfold trace_of, result_of;
    simpl; intros Hin Hnone; apply elem_of_app in Hin as [Hin|Hin];
    try (by apply Hno in Hin as [? _]); decompose_list_elem_of; simplify_eq.
  eexists. split; [reflexivity|]. simpl. repeat split; eauto.
  intros e Hin. apply elem_of_app in Hin as [Hin|Hin];
    [by apply Hno in Hin as [_ ?]|]. decompose_list_elem_of. by subst.
Qed.

(** The iteration after a retry: the router is asked again, with the
    fixed message, and the console is not read. *)
Lemma retry_iteration lv o n cur :
  first_run lv = false → is_retry lv = true →
  state lv !! "current_speaker" = Some cur → truthy cur = false →
  ∃ rest,
    trace_of (exec o n (body buffer_get lv)) =
    EOrchestration (state lv) clarification (buffer_get (root_memory lv))
      (orchestration_agent o n) :: rest ∧
    ∀ e, e ∈ rest → is_input e = false.
Proof.
  intros H1 H2 H3 H4. rewrite exec_body, utterance_retry by done.
  rewrite (turn_routed _ _ o n cur) by done. simpl.
  destruct (dispatch _ (state lv)) as [[w st']|]; unfold trace_of; simpl;
    eexists; (split; [reflexivity|]); intros e Hin;
    decompose_list_elem_of; by subst.
Qed.

(** Claim C3.  When the router answers with a string outside the
    dispatchable identifiers, the iteration takes the retry edge: the
    shared dict is left as the router saw it and no agent speaks; the loop
    goes on with an iteration that reads nothing from the console and asks
    the router again with the fixed clarification message as the user's
    turn. *)
Theorem invalid_decision_takes_retry_edge lv o n st msg h said :
  EOrchestration st msg h said ∈ trace_of (exec o n (body buffer_get lv)) →
  strip said ∉ dispatchable →
  ∃ lv',
    result_of (exec o n (body buffer_get lv)) = Ok lv' ∧
    state lv' = st ∧
    is_retry lv' = true ∧
    (∀ e, e ∈ trace_of (exec o n (body buffer_get lv)) → is_agent e = false) ∧
    (should_continue lv' = true →
     ∀ fuel, while buffer_get (S fuel) lv'
             = body buffer_get lv' ≫= while buffer_get fuel) ∧
    ∀ o' n', ∃ rest,
      trace_of (exec o' n' (body buffer_get lv')) =
      EOrchestration st clarification (buffer_get (root_memory lv'))
        (orchestration_agent o' n') :: rest ∧
      ∀ e, e ∈ rest → is_input e = false.
Proof.
  intros Hin Hout.
  destruct (retry_edge lv o n st msg h said Hin) as
    (lv' & Hr & Hst & Hretry & Hfirst & (cur & Hcur & Htr) & Hno).
  { by apply dispatch_None_iff. }
  exists lv'. split; [done|]. split; [done|]. split; [done|].
  split; [done|]. split.
  - intros Hc fuel. simpl. by rewrite Hc.
  - intros o' n'. rewrite <- Hst in Hcur |- *.
    by apply (retry_iteration lv' o' n' cur).
Qed.

(** Claim C10.  [Speaker] has three members, [retriever], [reranking] and
    [orchestrator], for which the dispatch has no branch: when the router
    answers one of them the iteration takes the retry edge, as for any
    other unrecognised string.  Exactly [data_pre_processing], [indexing],
    [generation] and [Concierge], spelled so, are dispatched; the first
    three write [current_speaker], while [Concierge] does not and none of
    its tools does. *)
Theorem undispatched_speakers_take_retry_edge lv o n st msg h said who :
  who ∈ [Retriever; ReRanking; ORCHESTRATOR] →
  EOrchestration st msg h said ∈ trace_of (exec o n (body buffer_get lv)) →
  strip said = value who →
  (∃ lv',
     result_of (exec o n (body buffer_get lv)) = Ok lv' ∧
     state lv' = st ∧
     is_retry lv' = true ∧
     (∀ e, e ∈ trace_of (exec o n (body buffer_get lv)) → is_agent e = false) ∧
     ∀ o' n', ∃ rest,
       trace_of (exec o' n' (body buffer_get lv')) =
       EOrchestration st clarification (buffer_get (root_memory lv'))
         (orchestration_agent o' n') :: rest ∧
       ∀ e, e ∈ rest → is_input e = false) ∧
  (∀ s st0, is_Some (dispatch (PStr s) st0) ↔ s ∈ dispatchable) ∧
  dispatchable = ["data_pre_processing"; "indexing"; "generation"; "Concierge"] ∧
  (∀ st0, dispatch (PStr "concierge") st0 = None) ∧
  (∀ w st0, w ∈ sticky →
     dispatch (PStr (value w)) st0
     = Some (w, <["current_speaker" := PStr (value w)]> st0)) ∧
  (∀ st0, dispatch (PStr (value Concierge)) st0 = Some (Concierge, st0)) ∧
  (∀ cs st0,
     apply_calls Concierge cs st0 !! "current_speaker"
     = st0 !! "current_speaker").
Proof.
  intros Hw Hin Hsaid.
  assert (dispatch (PStr (strip said)) st = None) as Hnone.
  { rewrite Hsaid. decompose_list_elem_of; by subst. }
  split; [|split; [|split; [|split; [|split; [|split]]]]].
  - destruct (retry_edge lv o n st msg h said Hin Hnone) as
      (lv' & Hr & Hst & Hretry & Hfirst & (cur & Hcur & Htr) & Hno).
    exists lv'. repeat split; try done.
    intros o' n'. rewrite <- Hst in Hcur |- *.
    by apply (retry_iteration lv' o' n' cur).
  - intros s st0. rewrite <- not_eq_None_Some, dispatch_None_iff.
    split; [|by intros ? ?]. intros Hnn.
    destruct (decide (s ∈ dispatchable)); [done|by destruct Hnn].
  - reflexivity.
  - reflexivity.
  - intros w st0 Hs. by apply dispatch_sticky.
  - reflexivity.
  - intros cs st0. by rewrite apply_calls_speaker, concierge_never_completes.
Qed.

(** ** Continuation after a completed task *)

(** What the speaker-resolution and agent steps show of the dict. *)
Lemma turn_trace msg lv o n :
  Forall (fun e => match e with
                   | EOrchestration st _ _ _ => st = state lv
                   | EAgent _ built _ _ _ _ => built = state lv
                   | _ => False
                   end)
    (trace_of (exec o n (turn buffer_get msg lv))).
Proof.
  unfold turn, resolve_speaker, item.
  destruct (state lv !! "current_speaker") as [cur|]; simpl;
    [|by constructor].
  destruct (truthy cur); simpl.
  - destruct (dispatch cur (state lv)) as [[w st']|]; unfold trace_of; simpl;
      by repeat constructor.
  - destruct (dispatch _ (state lv)) as [[w st']|]; unfold trace_of; simpl;
      by repeat constructor.
Qed.

Lemma completion_in_app t1 t2 :
  completion_in (t1 ++ t2) = completion_in t1 || completion_in t2.
Proof. apply existsb_app. Qed.

Lemma completion_in_no_agent t :
  Forall (fun e => is_orchestration e = false ∧ is_agent e = false) t →
  completion_in t = false.
Proof.
  induction 1 as [|e t [_ He] _ IH]; simpl; [done|].
  rewrite IH. by destruct e.
Qed.

(** After any iteration [just_finished] tells whether a completion action
    was called in it. *)
Lemma body_finished lv o n :
  inv lv →
  ∃ lv',
    result_of (exec o n (body buffer_get lv)) = Ok lv' ∧
    state lv' !! "just_finished"
    = Some (PBool (completion_in (trace_of (exec o n (body buffer_get lv))))).
Proof.
  intros Hi. rewrite exec_body.
  destruct (utterance_inv lv o n Hi) as (t & msg & lv1 & n1 & -> & Ht & _ & Hno).
  destruct (turn_inv msg lv1 o n1 Ht) as (t2 & lv' & n' & -> & _ & Hf).
  exists lv'. unfold result_of, trace_of. simpl. split; [done|].
  by rewrite completion_in_app, (completion_in_no_agent t Hno).
Qed.

(** The continuation agent is asked only at the head of an iteration that
    starts with [just_finished] set. *)
Lemma continuation_needs_completion lv o n :
  inv lv →
  state lv !! "just_finished" = Some (PBool false) →
  ∀ e, e ∈ trace_of (exec o n (body buffer_get lv)) → is_continuation e = false.
Proof.
  intros Hi Hf e. rewrite exec_body.
  assert (∃ t msg lv1 n1,
            exec o n (utterance lv) = (t, Ok (msg, lv1), n1) ∧
            Forall (fun e => is_continuation e = false) t) as
    (t & msg & lv1 & n1 & -> & Hno).
  { destruct (first_run lv) eqn:E1;
      [rewrite utterance_first by done; eexists _, _, _, _; by split|].
    destruct (is_retry lv) eqn:E2;
      [rewrite utterance_retry by done; eexists _, _, _, _; by split|].
    rewrite (utterance_direct lv o n (PBool false)) by done.
    eexists _, _, _, _. split; [reflexivity|]. by repeat constructor. }
  pose proof (turn_trace msg lv1 o n1) as Ht.
  destruct (exec o n1 (turn buffer_get msg lv1)) as [[t2 r] n2].
  unfold trace_of in *. simpl in *. rewrite Forall_forall in Hno, Ht.
  intros Hin. apply elem_of_app in Hin as [Hin|Hin]; [by apply Hno|].
  apply Ht in Hin. by destruct e.
Qed.

(** Claim C5.  When an iteration that is neither the first nor a retry
    starts with [just_finished] set, the continuation agent is asked
    before anything is read from the console, and [just_finished] is
    cleared before the speaker is resolved.  From then on the flag is set
    at the end of an iteration exactly when a completion action was called
    in that iteration, and the continuation agent is not asked again while
    it is clear. *)
Theorem continuation_round_trip lv o n :
  reachable buffer_get lv →
  first_run lv = false → is_retry lv = false →
  state lv !! "just_finished" = Some (PBool true) →
  let x := exec o n (body buffer_get lv) in
  (∃ h said rest,
     trace_of x = EContinuation (state lv) continuation_request h said :: rest ∧
     ∀ e, e ∈ rest → is_continuation e = false) ∧
  (∀ st msg h said,
     EOrchestration st msg h said ∈ trace_of x →
     st !! "just_finished" = Some (PBool false)) ∧
  (∀ who built st msg h reply,
     EAgent who built st msg h reply ∈ trace_of x →
     built !! "just_finished" = Some (PBool false)) ∧
  (∃ lv',
     result_of x = Ok lv' ∧
     state lv' !! "just_finished" = Some (PBool (completion_in (trace_of x)))) ∧
  (∀ lv2 o2 n2,
     reachable buffer_get lv2 →
     state lv2 !! "just_finished" = Some (PBool false) →
     let x2 := exec o2 n2 (body buffer_get lv2) in
     (∀ e, e ∈ trace_of x2 → is_continuation e = false) ∧
     ∃ lv2',
       result_of x2 = Ok lv2' ∧
       state lv2' !! "just_finished"
       = Some (PBool (completion_in (trace_of x2)))).
Proof.
  intros Hr H1 H2 Hf x. apply reachable_inv in Hr.
  assert (∃ h said rest1 msg lv1 n1,
            exec o n (utterance lv)
            = (EContinuation (state lv) continuation_request h said :: rest1,
               Ok (msg, lv1), n1) ∧
            Forall (fun e => is_input e = true) rest1 ∧
            state lv1 !! "just_finished" = Some (PBool false)) as
    (h & said & rest1 & msg & lv1 & n1 & Hu & Hin1 & Hf1).
  { destruct (inv_history _ Hr H1) as [h Hh].
    rewrite (utterance_continuation lv o n (PBool true) h) by done.
    cbv zeta. eexists h, _, _, _, _, _. split; [reflexivity|].
    split; [|simpl; by rewrite lookup_insert_eq].
    destruct (String.eqb _ no_further_task); by repeat constructor. }
  destruct (exec o n1 (turn buffer_get msg lv1)) as [[t2 r] n2] eqn:Ht.
  pose proof (turn_trace msg lv1 o n1) as Htr.
  rewrite Ht in Htr. unfold trace_of in Htr. simpl in Htr.
  rewrite Forall_forall in Hin1, Htr.
  assert (trace_of x
          = EContinuation (state lv) continuation_request h said
              :: (rest1 ++ t2)) as Hx.
  { unfold x. rewrite exec_body, Hu, Ht. reflexivity. }
  split; [|split; [|split; [|split]]].
  - exists h, said, (rest1 ++ t2). split; [done|].
    intros e Hin. apply elem_of_app in Hin as [Hin|Hin].
    + apply Hin1 in Hin. by destruct e.
    + apply Htr in Hin. by destruct e.
  - intros st m h' said' Hin. rewrite Hx in Hin.
    apply elem_of_cons in Hin as [Hin|Hin]; [done|].
    apply elem_of_app in Hin as [Hin|Hin]; [by apply Hin1 in Hin|].
    apply Htr in Hin. by subst.
  - intros who built st m h' reply Hin. rewrite Hx in Hin.
    apply elem_of_cons in Hin as [Hin|Hin]; [done|].
    apply elem_of_app in Hin as [Hin|Hin]; [by apply Hin1 in Hin|].
    apply Htr in Hin. by subst.
  - apply body_finished, Hr.
  - intros lv2 o2 m2 Hr2 Hf2 x2. apply reachable_inv in Hr2. split.
    + by apply continuation_needs_completion.
    + by apply body_finished.
Qed.

(** ** The history given to the continuation agent *)

(** The continuation agent is given what the list bound to
    [current_history] holds when the iteration begins. *)
Lemma continuation_history lv o n st msg h said :
  EContinuation st msg h said ∈ trace_of (exec o n (body buffer_get lv)) →
  current_history lv = Some h.
Proof.
  rewrite exec_body.
  assert (Forall (fun e => match e with
                           | EContinuation _ _ h' _ =>
                               current_history lv = Some h'
                           | _ => True
                           end) (trace_of (exec o n (utterance lv)))) as Hu.
  { unfold utterance, item.
    destruct (first_run lv); simpl; [by constructor|].
    destruct (is_retry lv); simpl; [by constructor|].
    destruct (state lv !! "just_finished") as [jf|]; simpl; [|by constructor].
    destruct (eq_True jf); simpl.
    - destruct (current_history lv) as [h'|]; simpl; [|by constructor].
      destruct (String.eqb _ no_further_task); simpl.
      + destruct (String.eqb (lower _) "exit"); simpl; by repeat constructor.
      + by repeat constructor.
    - destruct (String.eqb (lower _) "exit"); simpl; by repeat constructor. }
  destruct (exec o n (utterance lv)) as [[t1 [[m lv1]|e]] n1];
    unfold trace_of in Hu; simpl in Hu; rewrite Forall_forall in Hu.
  - pose proof (turn_trace m lv1 o n1) as Ht.
    destruct (exec o n1 (turn buffer_get m lv1)) as [[t2 r] n2].
    unfold trace_of in *. simpl in *. rewrite Forall_forall in Ht.
    intros Hin. apply elem_of_app in Hin as [Hin|Hin]; [by apply Hu in Hin|].
    by apply Ht in Hin.
  - unfold trace_of. simpl. intros Hin. by apply Hu in Hin.
Qed.

(** What an agent turn leaves behind: the list the agent was handed, with
    the messages of its turn, is the stored log and the list bound to
    [current_history]. *)
Lemma turn_adopts_log msg lv o n who built st m h reply lv' :
  EAgent who built st m h reply ∈ trace_of (exec o n (turn buffer_get msg lv)) →
  result_of (exec o n (turn buffer_get msg lv)) = Ok lv' →
  root_memory lv' = h ++ added reply ∧
  current_history lv' = Some (h ++ added reply) ∧
  shared lv' = true.
Proof.
  unfold turn, resolve_speaker, item.
  destruct (state lv !! "current_speaker") as [cur|]; simpl;
    [|unfold trace_of; simpl; intros Hin; by apply elem_of_nil in Hin].
  destruct (truthy cur); simpl.
  - destruct (dispatch cur (state lv)) as [[w st']|]; unfold trace_of, result_of;
      simpl; intros Hin Hr; decompose_list_elem_of; by simplify_eq.
  - destruct (dispatch _ (state lv)) as [[w st']|]; unfold trace_of, result_of;
      simpl; intros Hin Hr; decompose_list_elem_of; by simplify_eq.
Qed.

(** Claim C6.  Whenever the continuation agent is asked in [run], the
    history it is given is the stored log as it then stands.  After an
    iteration in which an agent spoke that log is the list the agent was
    handed with the messages of its turn appended: the continuation agent
    is given all of the conversation so far, the turn just finished
    included. *)
Theorem continuation_gets_the_stored_log lv o n st m h said :
  reachable buffer_get lv →
  EContinuation st m h said ∈ trace_of (exec o n (body buffer_get lv)) →
  h = root_memory lv ∧
  ∀ lv0 o0 n0 who built st' m' h' reply,
    result_of (exec o0 n0 (body buffer_get lv0)) = Ok lv →
    EAgent who built st' m' h' reply
      ∈ trace_of (exec o0 n0 (body buffer_get lv0)) →
    h = h' ++ added reply.
Proof.
  intros Hr Hcont. apply reachable_inv in Hr.
  assert (current_history lv = Some h) as Hh
    by (by eapply continuation_history).
  assert (h = root_memory lv) as Hlog.
  { destruct (inv_finished _ Hr) as [[|] Hf].
    - rewrite (inv_log _ Hr Hf) in Hh. by simplify_eq.
    - by apply (continuation_needs_completion lv o n Hr Hf) in Hcont. }
  split; [done|].
  intros lv0 o0 n0 who built st' m' h' reply Hres Hagent.
  rewrite exec_body in Hres, Hagent.
  pose proof (utterance_shape lv0 o0 n0) as Hu.
  destruct (exec o0 n0 (utterance lv0)) as [[t1 [[msg lv1]|e]] n1];
    destruct Hu as [Hno _]; rewrite Forall_forall in Hno.
  2:{ unfold trace_of in Hagent; simpl in Hagent.
      by apply Hno in Hagent as [_ ?]. }
  destruct (turn_adopts_log msg lv1 o0 n1 who built st' m' h' reply lv)
    as (Hroot & _).
  - destruct (exec o0 n1 (turn buffer_get msg lv1)) as [[t2 r] n2].
    unfold trace_of in *. simpl in *.
    apply elem_of_app in Hagent as [Hin|Hin]; [|done].
    by apply Hno in Hin as [_ ?].
  - by destruct (exec o0 n1 (turn buffer_get msg lv1)) as [[t2 r] n2].
  - congruence.
Qed.

End LoopFacts.


(** ** The parameter setters *)

(** Claim C9, as the spec words it, fails: given the empty string the
    setter answers true and stores it, and given null it overwrites a
    directory that was set. *)
Lemma setter_keeps_field_unset_counterexample :
  DocumentPreprocessingAgent.has_input_dir (PStr "") get_initial_state
  = (Ok true, <["input_dir" := PStr ""]> get_initial_state) ∧
  DocumentPreprocessingAgent.has_input_dir PNone
    (<["input_dir" := PStr "/docs"]> get_initial_state)
  = (Ok false, get_initial_state) ∧
  ¬ keeps_field_unset DocumentPreprocessingAgent.has_input_dir "input_dir".
Proof.
  split; [reflexivity|]. split; [reflexivity|].
  intros H. destruct (H (PStr "") get_initial_state) as [H1 _]; [by right|].
  discriminate H1.
Qed.

(** Claim C9, amended.  Each parameter setter stores the value it is
    given, whatever it is, answers whether that value is not null, and
    raises nothing.  So a null argument leaves the field null, also when it
    held a value before, and the answer is false; an empty string is
    stored like any other value and the answer is true. *)
Theorem setter_stores_its_argument (v : pyval) (st : gmap string pyval) :
  DocumentPreprocessingAgent.has_input_dir v st
  = (Ok (is_not_None v), <["input_dir" := v]> st) ∧
  DocumentPreprocessingAgent.has_chunk_size v st
  = (Ok (is_not_None v), <["chunk_size" := v]> st) ∧
  DocumentPreprocessingAgent.has_chunk_overlap v st
  = (Ok (is_not_None v), <["chunk_overlap" := v]> st) ∧
  is_not_None PNone = false ∧
  is_not_None (PStr "") = true.
Proof.
  unfold DocumentPreprocessingAgent.has_input_dir,
    DocumentPreprocessingAgent.has_chunk_size,
    DocumentPreprocessingAgent.has_chunk_overlap.
  by rewrite !setter_run.
Qed.

(** ** The completion actions *)

(** Claim C4, on the code.  [done()] of the preprocessing agent writes
    [current_speaker] and [just_finished] of the shared dict and nothing
    else.  [done(state)] of the generation agent writes the same two keys
    of its own argument: whatever the argument and whatever the executor
    gave, the shared dict is as before, so that [current_speaker] still
    names the generation agent and [just_finished] is still false. *)
Theorem generation_done_misses_shared_state :
  (∀ st, DocumentPreprocessingAgent.done st
         = (Ok tt, <["just_finished" := PBool true]>
                     (<["current_speaker" := PNone]> st))) ∧
  (∀ arg outcome st, snd (GenerationAgent.done arg outcome st) = st) ∧
  GenerationAgent.done (PDict []) (GenerationAgent.Answers "answer")
    Session.generating
  = (Ok "answer", Session.generating) ∧
  GenerationAgent.done_param (PDict [])
  = Ok (PDict [("current_speaker", PNone); ("just_finished", PBool true)]) ∧
  GenerationAgent.done (PStr "") (GenerationAgent.Answers "answer")
    Session.generating
  = (Raised AttributeError, Session.generating) ∧
  Session.generating !! "current_speaker" = Some (PStr "generation") ∧
  Session.generating !! "just_finished" = Some (PBool false) ∧
  apply_calls Generation
    [gen_done (PDict []) (GenerationAgent.Answers "answer")]
    Session.generating
  = Session.generating.
Proof.
  split; [exact completion_run|].
  split; [exact generation_done_shared|].
  repeat split; reflexivity.
Qed.

(** ** Sample sessions *)

(** Claim C2, on the code.  The user is with the concierge and types
    [ Exit ]: the loop stops after this iteration, but within it the
    router is still asked about the utterance and the concierge still
    answers it. *)
Theorem exit_is_still_routed_and_answered :
  let x := exec Session.leaving 0 (run id 5) in
  map outline (trace_of x)
  = [Asked_router greeting; Spoke Concierge greeting;
     Asked_user " Exit "; Asked_router "Exit"; Spoke Concierge "Exit"] ∧
  ∃ lv, result_of x = Ok (Some lv) ∧ should_continue lv = false.
Proof.
  split; [vm_compute; reflexivity|].
  eexists. split; [vm_compute; reflexivity|]. reflexivity.
Qed.

(** Claim C7, on the code.  The answer of the router is stripped before
    it is compared: [ data_pre_processing ] is dispatched.  The answer of
    the continuation agent is compared as it comes: the bare sentinel
    sends the loop to the console, while the sentinel between blanks is
    taken for the next utterance of the user and given to the router. *)
Theorem padded_sentinel_is_taken_for_an_utterance :
  map outline (trace_of (exec Session.padded 0 (body id initial_vars)))
  = [Asked_router greeting; Spoke Data_pre_processing greeting] ∧
  map outline
    (trace_of (exec Session.bare 2
                 (body id (Session.after_first Session.bare))))
  = [Asked_continuation
       [Session.said " data_pre_processing "; Session.hello; Session.saved];
     Asked_user "hi"; Asked_router "hi"; Spoke Data_pre_processing "hi"] ∧
  map outline
    (trace_of (exec Session.padded 2
                 (body id (Session.after_first Session.padded))))
  = [Asked_continuation
       [Session.said " data_pre_processing "; Session.hello; Session.saved];
     Asked_router " no_further_task ";
     Spoke Data_pre_processing " no_further_task "] ∧
  strip " no_further_task " = no_further_task.
Proof. repeat split; vm_compute; reflexivity. Qed.

(** ** The theorems at sample sessions *)

Lemma after_first_reachable (o : oracle) :
  (∃ lv, result_of (exec o 0 (body id initial_vars)) = Ok lv) →
  reachable id (Session.after_first o).
Proof.
  intros [lv Hlv].
  apply (reach_step id initial_vars o 0
           (trace_of (exec o 0 (body id initial_vars)))
           (Session.after_first o)
           (snd (exec o 0 (body id initial_vars))));
    [apply reach_init|reflexivity|].
  unfold Session.after_first, trace_of. rewrite Hlv.
  unfold result_of in Hlv.
  destruct (exec o 0 (body id initial_vars)) as [[t r] n]. simpl in *.
  by subst.
Defined.

Lemma sticky_speaker_skips_router_witness :
  let lv := Session.after_first Session.preprocessing in
  reachable id lv ∧
  state lv !! "current_speaker" = Some (PStr "data_pre_processing") ∧
  (∀ e, e ∈ trace_of (exec Session.preprocessing 2 (body id lv)) →
        is_orchestration e = false) ∧
  map outline (trace_of (exec Session.preprocessing 2 (body id lv)))
  = [Asked_user "hi"; Spoke Data_pre_processing "hi"].
Proof.
  intros lv.
  assert (reachable id lv) as Hr.
  { apply after_first_reachable. eexists. vm_compute. reflexivity. }
  assert (state lv !! "current_speaker" = Some (PStr "data_pre_processing"))
    as Hs by (vm_compute; reflexivity).
  split; [exact Hr|]. split; [exact Hs|]. split; [|vm_compute; reflexivity].
  destruct (sticky_speaker_skips_router id lv Session.preprocessing 2
              (PStr "data_pre_processing") Hr Hs) as [H _].
  apply H. discriminate.
Defined.

Lemma invalid_decision_takes_retry_edge_witness :
  (EOrchestration get_initial_state greeting [] "banana"
     ∈ trace_of (exec Session.confused 0 (body id initial_vars))) ∧
  (strip "banana" ∉ dispatchable) ∧
  ∃ lv',
    result_of (exec Session.confused 0 (body id initial_vars)) = Ok lv' ∧
    state lv' = get_initial_state ∧
    is_retry lv' = true.
Proof.
  assert (EOrchestration get_initial_state greeting [] "banana"
            ∈ trace_of (exec Session.confused 0 (body id initial_vars)))
    as Hin by (vm_compute; left).
  assert (strip "banana" ∉ dispatchable) as Hout
    by (apply (bool_decide_unpack _); vm_compute; exact I).
  split; [exact Hin|]. split; [exact Hout|].
  destruct (invalid_decision_takes_retry_edge id initial_vars Session.confused
              0 get_initial_state greeting [] "banana" Hin Hout)
    as (lv' & H1 & H2 & H3 & _).
  exists lv'. by repeat split.
Defined.

Lemma undispatched_speakers_take_retry_edge_witness :
  (Retriever ∈ [Retriever; ReRanking; ORCHESTRATOR]) ∧
  (EOrchestration get_initial_state greeting [] " retriever "
     ∈ trace_of (exec Session.to_retriever 0 (body id initial_vars))) ∧
  strip " retriever " = value Retriever ∧
  ∃ lv',
    result_of (exec Session.to_retriever 0 (body id initial_vars)) = Ok lv' ∧
    state lv' = get_initial_state ∧
    is_retry lv' = true.
Proof.
  assert (Retriever ∈ [Retriever; ReRanking; ORCHESTRATOR]) as Hw by left.
  assert (EOrchestration get_initial_state greeting [] " retriever "
            ∈ trace_of (exec Session.to_retriever 0 (body id initial_vars)))
    as Hin by (vm_compute; left).
  assert (strip " retriever " = value Retriever) as Hs by reflexivity.
  split; [exact Hw|]. split; [exact Hin|]. split; [exact Hs|].
  destruct (undispatched_speakers_take_retry_edge id initial_vars
              Session.to_retriever 0 get_initial_state greeting []
              " retriever " Retriever Hw Hin Hs)
    as ((lv' & H1 & H2 & H3 & _) & _).
  exists lv'. by repeat split.
Defined.

Lemma continuation_gets_the_stored_log_witness :
  let lv := Session.after_first Session.bare in
  let routed := [Session.said " data_pre_processing "] in
  let log := [Session.said " data_pre_processing "; Session.hello;
              Session.saved] in
  reachable id lv ∧
  (EContinuation (state lv) continuation_request log "no_further_task"
     ∈ trace_of (exec Session.bare 2 (body id lv))) ∧
  result_of (exec Session.bare 0 (body id initial_vars)) = Ok lv ∧
  (EAgent Data_pre_processing get_initial_state Bench.dispatched greeting
     routed Session.finishing
     ∈ trace_of (exec Session.bare 0 (body id initial_vars))) ∧
  log = root_memory lv ∧
  log = routed ++ added Session.finishing.
Proof.
  intros lv routed log.
  assert (reachable id lv) as Hr.
  { apply after_first_reachable. eexists. vm_compute. reflexivity. }
  assert (EContinuation (state lv) continuation_request log "no_further_task"
            ∈ trace_of (exec Session.bare 2 (body id lv)))
    as Hcont by (vm_compute; left).
  assert (result_of (exec Session.bare 0 (body id initial_vars)) = Ok lv)
    as Hres by (vm_compute; reflexivity).
  assert (EAgent Data_pre_processing get_initial_state Bench.dispatched
            greeting routed Session.finishing
            ∈ trace_of (exec Session.bare 0 (body id initial_vars)))
    as Hagent by (vm_compute; right; left).
  split; [exact Hr|]. split; [exact Hcont|]. split; [exact Hres|].
  split; [exact Hagent|].
  destruct (continuation_gets_the_stored_log id lv Session.bare 2 (state lv)
              continuation_request log "no_further_task" Hr Hcont)
    as [H1 H2].
  split; [exact H1|].
  exact (H2 initial_vars Session.bare 0 Data_pre_processing get_initial_state
           Bench.dispatched greeting routed Session.finishing Hres Hagent).
Defined.

Lemma continuation_round_trip_witness :
  let lv := Session.after_first Session.bare in
  reachable id lv ∧
  first_run lv = false ∧ is_retry lv = false ∧
  state lv !! "just_finished" = Some (PBool true) ∧
  ∃ h said rest,
    trace_of (exec Session.bare 2 (body id lv))
    = EContinuation (state lv) continuation_request h said :: rest ∧
    ∀ e, e ∈ rest → is_continuation e = false.
Proof.
  intros lv.
  assert (reachable id lv) as Hr.
  { apply after_first_reachable. eexists. vm_compute. reflexivity. }
  assert (first_run lv = false) as H1 by reflexivity.
  assert (is_retry lv = false) as H2 by reflexivity.
  assert (state lv !! "just_finished" = Some (PBool true)) as H3
    by (vm_compute; reflexivity).
  split; [exact Hr|]. split; [exact H1|]. split; [exact H2|].
  split; [exact H3|].
  destruct (continuation_round_trip id lv Session.bare 2 Hr H1 H2 H3)
    as [H _].
  exact H.
Defined.

(** * Further properties of the loop *)

Section LoopSafety.

Variable buffer_get : list ChatMessage -> list ChatMessage.

(** ** What one iteration changes *)

(** The utterance step: it writes at most [just_finished], keeps the
    stored log unless the continuation agent is asked, and lowers
    [should_continue] exactly when the console gave [exit]. *)
Lemma utterance_effect lv o n :
  let '(t, r, _) := exec o n (utterance lv) in
  Forall (fun e => is_orchestration e = false ∧ is_agent e = false) t ∧
  match r with
  | Ok (_, lv1) =>
      (∀ key, key ≠ "just_finished" → state lv1 !! key = state lv !! key) ∧
      ((∀ e, e ∈ t → is_continuation e = false) →
       root_memory lv1 = root_memory lv) ∧
      should_continue lv1 = should_continue lv && negb (exit_read t)
  | Raised _ => True
  end.
Proof.
  unfold utterance, item, exit_read.
  destruct (first_run lv) eqn:E1; simpl;
    [rewrite andb_true_r; by repeat constructor|].
  destruct (is_retry lv) eqn:E2; simpl;
    [rewrite andb_true_r; by repeat constructor|].
  destruct (state lv !! "just_finished") as [jf|]; simpl;
    [|by repeat constructor].
  destruct (eq_True jf); simpl.
  - destruct (current_history lv) as [h|]; simpl; [|by repeat constructor].
    destruct (String.eqb _ no_further_task); simpl.
    + destruct (String.eqb (lower (strip (console o (S n)))) "exit") eqn:Ex;
        simpl; rewrite ?Ex; simpl;
        rewrite ?andb_false_r, ?andb_true_r; repeat split;
        try (by repeat constructor);
        try (intros key Hk; by rewrite lookup_insert_ne);
        intros H; specialize (H _ (list_elem_of_here _ _)); discriminate H.
    + rewrite andb_true_r. repeat split; try (by repeat constructor);
        try (intros key Hk; by rewrite lookup_insert_ne);
        intros H; specialize (H _ (list_elem_of_here _ _)); discriminate H.
  - destruct (String.eqb (lower (strip (console o n))) "exit") eqn:Ex;
      simpl; rewrite ?Ex; simpl;
      rewrite ?andb_false_r, ?andb_true_r; by repeat constructor.
Qed.

Lemma tool_effect_frame who st c key :
  key ∉ written_keys → tool_effect who st c !! key = st !! key.
Proof.
  intros Hk. unfold tool_effect. destruct (owns who c); [|done].
  rewrite run_tool_state. unfold written_keys in Hk.
  destruct c; try done; rewrite ?lookup_insert_ne; try done;
    intros <-; apply Hk; set_solver.
Qed.

Lemma apply_calls_frame who cs st key :
  key ∉ written_keys → apply_calls who cs st !! key = st !! key.
Proof.
  intros Hk. unfold apply_calls. revert st.
  induction cs as [|c cs IH]; intros st; simpl; [done|].
  by rewrite IH, tool_effect_frame.
Qed.

(** The turn step: it keeps [should_continue], reads nothing from the
    console, asks nothing of the continuation agent, writes only keys of
    [written_keys], and stores the list of the agent that spoke, which
    stays bound to [current_history]. *)
Lemma turn_effect msg lv o n lv' :
  result_of (exec o n (turn buffer_get msg lv)) = Ok lv' →
  let t := trace_of (exec o n (turn buffer_get msg lv)) in
  should_continue lv' = should_continue lv ∧
  exit_read t = false ∧
  (∀ key, key ∉ written_keys → state lv' !! key = state lv !! key) ∧
  root_memory lv' = default (root_memory lv) (adopted_log t) ∧
  (∀ log, adopted_log t = Some log → current_history lv' = Some log) ∧
  (∀ e, e ∈ t → is_continuation e = false).
Proof.
  unfold turn, resolve_speaker, item.
  destruct (state lv !! "current_speaker") as [cur|]; simpl;
    [|unfold result_of; simpl; discriminate].
  assert (∀ ns w st' key, dispatch ns (state lv) = Some (w, st') →
            key ∉ written_keys → st' !! key = state lv !! key) as Hd.
  { intros ns w st' key Hd Hk. apply dispatch_Some in Hd as [_ Hd].
    destruct Hd as [[_ ->]|[_ ->]]; [|done].
    rewrite lookup_insert_ne; [done|]. intros <-. apply Hk.
    unfold written_keys. set_solver. }
  destruct (truthy cur); simpl.
  - destruct (dispatch cur (state lv)) as [[w st']|] eqn:Ed;
      unfold trace_of, result_of; simpl; intros Hr; simplify_eq; simpl;
      repeat split; try done;
      try (intros e Hin; decompose_list_elem_of; by subst);
      try (intros log Hl; by simplify_eq).
    intros key Hk. rewrite apply_calls_frame by done. by eapply Hd.
  - destruct (dispatch _ (state lv)) as [[w st']|] eqn:Ed;
      unfold trace_of, result_of; simpl; intros Hr; simplify_eq; simpl;
      repeat split; try done;
      try (intros e Hin; decompose_list_elem_of; by subst);
      try (intros log Hl; by simplify_eq).
    intros key Hk. rewrite apply_calls_frame by done. by eapply Hd.
Qed.

Lemma exit_read_app t1 t2 : exit_read (t1 ++ t2) = exit_read t1 || exit_read t2.
Proof. apply existsb_app. Qed.

Lemma adopted_log_app t1 t2 :
  Forall (fun e => is_orchestration e = false ∧ is_agent e = false) t1 →
  adopted_log (t1 ++ t2) = adopted_log t2.
Proof.
  unfold adopted_log. rewrite fold_left_app. intros H.
  assert (fold_left (fun acc e => match e with
                                  | EAgent _ _ _ _ h reply =>
                                      Some (h ++ added reply)
                                  | _ => acc
                                  end) t1 None = None) as ->; [|done].
  induction H as [|e t [_ He] _ IH]; simpl; [done|]. by destruct e.
Qed.

Lemma adopted_log_no_agent t :
  (∀ e, e ∈ t → is_agent e = false) → adopted_log t = None.
Proof.
  unfold adopted_log. induction t as [|e t IH]; intros H; simpl; [done|].
  assert (is_agent e = false) as He by (apply H; left).
  destruct e; try discriminate He; apply IH; intros e' Hin; apply H; by right.
Qed.

(** One iteration, put together. *)
Lemma body_effect lv o n lv' :
  result_of (exec o n (body buffer_get lv)) = Ok lv' →
  let t := trace_of (exec o n (body buffer_get lv)) in
  should_continue lv' = should_continue lv && negb (exit_read t) ∧
  (∀ key, key ∉ written_keys → state lv' !! key = state lv !! key) ∧
  (∀ log, adopted_log t = Some log →
          root_memory lv' = log ∧ current_history lv' = Some log) ∧
  (adopted_log t = None → (∀ e, e ∈ t → is_continuation e = false) →
   root_memory lv' = root_memory lv).
Proof.
  rewrite exec_body. pose proof (utterance_effect lv o n) as Hu.
  destruct (exec o n (utterance lv)) as [[t1 [[m lv1]|e]] n1];
    [|unfold result_of; simpl; discriminate].
  destruct Hu as (Hno & Hst & Hmem & Hsc).
  pose proof (turn_effect m lv1 o n1) as Ht.
  destruct (exec o n1 (turn buffer_get m lv1)) as [[t2 r] n2].
  unfold result_of, trace_of in *. simpl in *. intros ->.
  destruct (Ht lv' eq_refl) as (Hsc' & Hex & Hst' & Hmem' & Hh' & _).
  rewrite exit_read_app, Hex, orb_false_r, adopted_log_app by done.
  split; [congruence|]. split; [|split].
  - intros key Hk. rewrite Hst' by done. apply Hst. intros ->. apply Hk.
    unfold written_keys. by left.
  - intros log Hl. split; [by rewrite Hmem', Hl|by apply Hh'].
  - intros Hl Hc. rewrite Hmem', Hl. simpl. apply Hmem.
    intros e Hin. apply Hc, elem_of_app. by left.
Qed.

(** ** Leaving the loop *)

(** Property X2.
    An iteration lowers [should_continue] exactly when the console gave
    [exit] in it; nothing else in the loop touches the flag. *)
Theorem iteration_stops_exactly_on_exit lv o n lv' :
  result_of (exec o n (body buffer_get lv)) = Ok lv' →
  should_continue lv'
  = should_continue lv
    && negb (exit_read (trace_of (exec o n (body buffer_get lv)))).
Proof. intros H. by destruct (body_effect lv o n lv' H) as (? & _). Qed.

Lemma while_exit fuel lv o n lv' :
  result_of (exec o n (while buffer_get fuel lv)) = Ok (Some lv') →
  should_continue lv' = false ∧
  (should_continue lv = true →
   exit_read (trace_of (exec o n (while buffer_get fuel lv))) = true).
Proof.
  revert lv n. induction fuel as [|fuel IH]; intros lv n; simpl;
    destruct (should_continue lv) eqn:Esc;
    try (unfold result_of; simpl; intros H; by simplify_eq).
  rewrite exec_bind.
  pose proof (body_effect lv o n) as Hb.
  destruct (exec o n (body buffer_get lv)) as [[t1 [lv1|e]] n1];
    [|unfold result_of; simpl; discriminate].
  destruct (Hb lv1 eq_refl) as [Hb' _]. clear Hb. rename Hb' into Hb.
  unfold trace_of in Hb. simpl in Hb.
  specialize (IH lv1 n1).
  destruct (exec o n1 (while buffer_get fuel lv1)) as [[t2 r] n2].
  unfold result_of, trace_of in *. simpl in *. intros ->.
  destruct (IH eq_refl) as [IH1 IH2]. split; [done|]. intros _.
  rewrite exit_read_app. rewrite Esc in Hb. simpl in Hb.
  destruct (exit_read t1); [done|]. simpl. by apply IH2.
Qed.

(** Property X3.
    When a session has ended, the last values of the loop variables have
    [should_continue] lowered and the console gave [exit] at some point:
    there is no other way out of the loop. *)
Theorem run_ends_only_after_exit fuel o n lv :
  result_of (exec o n (run buffer_get fuel)) = Ok (Some lv) →
  should_continue lv = false ∧
  exit_read (trace_of (exec o n (run buffer_get fuel))) = true.
Proof.
  intros H. destruct (while_exit fuel initial_vars o n lv H) as [H1 H2].
  split; [done|]. by apply H2.
Qed.

Lemma while_safe fuel lv o n :
  inv lv →
  ∃ r, result_of (exec o n (while buffer_get fuel lv)) = Ok r.
Proof.
  revert lv n. induction fuel as [|fuel IH]; intros lv n Hi; simpl;
    destruct (should_continue lv); try (by eexists).
  rewrite exec_bind.
  destruct (body_inv buffer_get lv o n Hi) as (t & lv1 & n1 & -> & Hi1).
  destruct (IH lv1 n1 Hi1) as [r Hr].
  destruct (exec o n1 (while buffer_get fuel lv1)) as [[t2 r2] n2].
  unfold result_of in *. simpl in *. eauto.
Qed.

(** Property X1.
    Whatever the console and the agents answer, [run] raises nothing:
    every key the loop reads is in the dict, and [current_history] is
    bound whenever the continuation branch reads it. *)
Theorem run_never_raises fuel o n :
  ∃ r, result_of (exec o n (run buffer_get fuel)) = Ok r.
Proof. apply while_safe, inv_initial. Qed.

(** ** The log *)

(** Property X4.
    After an iteration in which an agent spoke, the stored log and the
    list bound to [current_history] hold what the list of that agent holds
    at the end of its turn: the history it was handed and the messages of
    the turn.  After an iteration in which no agent spoke and the
    continuation agent was not asked, the stored log is as before. *)
Theorem iteration_adopts_agent_log lv o n lv' :
  result_of (exec o n (body buffer_get lv)) = Ok lv' →
  let t := trace_of (exec o n (body buffer_get lv)) in
  (∀ who built st msg h reply rest,
     t = rest ++ [EAgent who built st msg h reply] →
     root_memory lv' = h ++ added reply ∧
     current_history lv' = Some (h ++ added reply)) ∧
  ((∀ e, e ∈ t → is_agent e = false ∧ is_continuation e = false) →
   root_memory lv' = root_memory lv).
Proof.
  intros H. destruct (body_effect lv o n lv' H) as (_ & _ & Ha & Hn).
  split.
  - intros who built st msg h reply rest Ht. apply Ha.
    rewrite Ht. unfold adopted_log. by rewrite fold_left_app.
  - intros Hno. apply Hn; [|intros e Hin; by apply Hno].
    apply adopted_log_no_agent. intros e Hin. by apply Hno.
Qed.

(** ** Keys nobody writes *)

Lemma reachable_frame lv key :
  reachable buffer_get lv → key ∉ written_keys →
  state lv !! key = get_initial_state !! key.
Proof.
  induction 1 as [|lv o n t lv' n' _ IH _ He]; intros Hk; [done|].
  rewrite <- IH by done.
  assert (result_of (exec o n (body buffer_get lv)) = Ok lv') as Hr
    by (by rewrite He).
  destruct (body_effect lv o n lv' Hr) as (_ & Hf & _). by apply Hf.
Qed.

(** Property X11.
    No iteration and no tool writes [query], [search_type] or
    [reranking_model]: at the head of every iteration the three checks the
    orchestration agent has for them answer false. *)
Theorem generation_parameters_stay_unset lv :
  reachable buffer_get lv →
  OrchestrationAgent.has_query (state lv) = (Ok false, state lv) ∧
  OrchestrationAgent.has_search_type (state lv) = (Ok false, state lv) ∧
  OrchestrationAgent.has_reranking_model (state lv) = (Ok false, state lv).
Proof.
  intros Hr.
  assert (∀ key, key ∉ written_keys → get_initial_state !! key = Some PNone →
            OrchestrationAgent.has_field key (state lv) = (Ok false, state lv))
    as H.
  { intros key Hk Hi. unfold OrchestrationAgent.has_field.
    unfold mbind, tool_bind, tbind, getitem.
    by rewrite (reachable_frame lv key Hr Hk), Hi. }
  repeat split; apply H; try reflexivity;
    unfold written_keys; intros Hin; decompose_list_elem_of; done.
Qed.

(** ** Holding and releasing the floor *)

Lemma generation_never_completes cs : signals_completion Generation cs = false.
Proof.
  unfold signals_completion. induction cs as [|c cs IH]; simpl; [done|].
  rewrite IH. unfold is_completion. by destruct c.
Qed.

(** The agent turn of an iteration, seen from the resolution of the
    speaker. *)
Lemma turn_floor msg lv o n who built st m h reply lv' :
  at_turn lv →
  EAgent who built st m h reply ∈ trace_of (exec o n (turn buffer_get msg lv)) →
  result_of (exec o n (turn buffer_get msg lv)) = Ok lv' →
  (who ∈ sticky ∧ st !! "current_speaker" = Some (PStr (value who)) ∨
   who = Concierge ∧ st !! "current_speaker" = Some PNone) ∧
  state lv' !! "current_speaker"
  = (if signals_completion who (calls reply) then Some PNone
     else st !! "current_speaker") ∧
  state lv' !! "just_finished"
  = Some (PBool (signals_completion who (calls reply))).
Proof.
  intros [Hs Hf Hfirst Hretry].
  destruct Hs as [Hs|[w [Hw Hs]]].
  - rewrite (turn_routed buffer_get msg lv o n PNone) by done. cbv zeta.
    destruct (dispatch _ (state lv)) as [[w st']|] eqn:Ed;
      unfold trace_of, result_of; simpl; intros Hin Hr;
      decompose_list_elem_of; simplify_eq.
    apply dispatch_Some in Ed as [Hns Ed]. rewrite Hns in Ed. simpl.
    rewrite apply_calls_speaker, apply_calls_finished.
    destruct Ed as [[Hw ->]|[-> ->]].
    + rewrite lookup_insert_eq, lookup_insert_ne, Hf by done.
      split; [left; by split|]. split; [done|].
      by destruct (signals_completion _ _).
    + rewrite Hs, Hf. split; [right; by split|]. split; [done|].
      by destruct (signals_completion _ _).
  - rewrite (turn_of_sticky buffer_get msg lv o n w) by done.
    unfold trace_of, result_of. simpl. intros Hin Hr.
    decompose_list_elem_of; simplify_eq. simpl.
    rewrite apply_calls_speaker, apply_calls_finished.
    rewrite lookup_insert_eq, lookup_insert_ne, Hf by done.
    split; [left; by split|]. split; [done|].
    by destruct (signals_completion _ _).
Qed.

(** Property X7.
    An agent that speaks is a sticky one or the concierge.  When its turn
    called a completion action, the floor is free and [just_finished] is
    set at the end of the iteration; when it did not, [just_finished] is
    clear, a sticky agent still holds the floor and the concierge does
    not. *)
Theorem floor_is_released_on_completion lv o n who built st m h reply lv' :
  reachable buffer_get lv →
  EAgent who built st m h reply ∈ trace_of (exec o n (body buffer_get lv)) →
  result_of (exec o n (body buffer_get lv)) = Ok lv' →
  (who ∈ sticky ∨ who = Concierge) ∧
  (signals_completion who (calls reply) = true →
   state lv' !! "current_speaker" = Some PNone ∧
   state lv' !! "just_finished" = Some (PBool true)) ∧
  (signals_completion who (calls reply) = false →
   state lv' !! "just_finished" = Some (PBool false) ∧
   (who ∈ sticky →
    state lv' !! "current_speaker" = Some (PStr (value who))) ∧
   (who = Concierge → state lv' !! "current_speaker" = Some PNone)).
Proof.
  intros Hr. apply (reachable_inv buffer_get) in Hr.
  destruct (utterance_inv lv o n Hr) as (t1 & msg & lv1 & n1 & He & Ht & _ & Hno).
  rewrite exec_body, He. rewrite Forall_forall in Hno.
  pose proof (turn_floor msg lv1 o n1 who built st m h reply lv' Ht) as Hfl.
  destruct (exec o n1 (turn buffer_get msg lv1)) as [[t2 r] n2].
  unfold trace_of, result_of in *. simpl in *. intros Hin ->.
  apply elem_of_app in Hin as [Hin|Hin]; [by apply Hno in Hin as [_ ?]|].
  destruct (Hfl Hin eq_refl) as (Hw & Hs & Hf).
  split; [destruct Hw as [[? _]|[? _]]; [by left|by right]|].
  destruct (signals_completion who (calls reply)).
  - split; [done|]. intros; discriminate.
  - split; [intros; discriminate|]. intros _. split; [done|].
    rewrite Hs. split.
    + intros Hsticky. destruct Hw as [[_ ?]|[-> _]]; [done|].
      unfold sticky in Hsticky. decompose_list_elem_of; discriminate.
    + intros ->. destruct Hw as [[Hsticky _]|[_ ?]]; [|done].
      unfold sticky in Hsticky. decompose_list_elem_of; discriminate.
Qed.

(** One iteration while the generation agent holds the floor. *)
Lemma body_generation lv o n :
  inv lv →
  state lv !! "current_speaker" = Some (PStr (value Generation)) →
  state lv !! "just_finished" = Some (PBool false) →
  ∃ asked built st msg h reply lv' n',
    exec o n (body buffer_get lv)
    = (asked ++ [EAgent Generation built st msg h reply], Ok lv', n') ∧
    Forall (fun e => is_input e = true) asked ∧
    st !! "current_speaker" = Some (PStr (value Generation)) ∧
    inv lv' ∧
    state lv' !! "current_speaker" = Some (PStr (value Generation)) ∧
    state lv' !! "just_finished" = Some (PBool false).
Proof.
  intros Hi Hs Hf.
  pose proof (continuation_needs_completion buffer_get lv o n Hi Hf) as Hnc.
  pose proof (body_finished buffer_get lv o n Hi) as (lv2 & Hr2 & Hf2).
  destruct (utterance_inv lv o n Hi) as (t1 & msg & lv1 & n1 & He & Ht & Hs1 & Hno).
  rewrite exec_body, He in *. rewrite Hs in Hs1.
  assert (Generation ∈ sticky) as Hg by (unfold sticky; set_solver).
  rewrite (turn_of_sticky buffer_get msg lv1 o n1 Generation) in * by done.
  cbv zeta in *. unfold trace_of, result_of in *. simpl in *.
  eexists t1, _, _, _, _, _, _, _. split; [reflexivity|]. simplify_eq.
  split; [|split; [|split; [|split]]].
  - apply Forall_forall. intros e Hin. rewrite Forall_forall in Hno.
    specialize (Hnc e). destruct (Hno e Hin) as [Ho Ha].
    destruct e; try done.
    discriminate Hnc. apply elem_of_app. by left.
  - by rewrite lookup_insert_eq.
  - destruct (turn_inv buffer_get msg lv1 o n1 Ht) as (t2 & lv' & n' & Ht2 & Hi' & _).
    rewrite (turn_of_sticky buffer_get msg lv1 o n1 Generation) in Ht2 by done.
    cbv zeta in Ht2. by simplify_eq.
  - simpl. by rewrite apply_calls_speaker, generation_never_completes,
      lookup_insert_eq.
  - rewrite Hf2. rewrite completion_in_app, (completion_in_no_agent t1 Hno).
    simpl. by rewrite generation_never_completes.
Qed.

Lemma while_generation fuel lv o n :
  inv lv →
  state lv !! "current_speaker" = Some (PStr (value Generation)) →
  state lv !! "just_finished" = Some (PBool false) →
  Forall console_or_generation
    (trace_of (exec o n (while buffer_get fuel lv))) ∧
  ∀ lv_end,
    result_of (exec o n (while buffer_get fuel lv)) = Ok (Some lv_end) →
    state lv_end !! "current_speaker" = Some (PStr (value Generation)).
Proof.
  revert lv n.
  induction fuel as [|fuel IH]; intros lv n Hi Hs Hf; simpl;
    destruct (should_continue lv);
    try (split; [by constructor|];
         unfold result_of; simpl; intros lv_end H; by simplify_eq).
  rewrite exec_bind.
  destruct (body_generation lv o n Hi Hs Hf) as
    (asked & built & st & msg & h & reply & lv1 & n1 & -> & Hin & Hst & Hi1
     & Hs1 & Hf1).
  destruct (IH lv1 n1 Hi1 Hs1 Hf1) as [IH1 IH2].
  destruct (exec o n1 (while buffer_get fuel lv1)) as [[t2 r2] n2].
  unfold trace_of, result_of in *. simpl in *. split; [|done].
  apply Forall_app. split; [|done]. apply Forall_app. split.
  - eapply Forall_impl; [exact Hin|]. intros e He. by destruct e.
  - by repeat constructor.
Qed.

(** Property X8.
    Once the generation agent holds the floor it keeps it.  An iteration
    that starts with the generation agent holding the floor asks neither
    the router nor the continuation agent: it takes the utterance from the
    console, if from anywhere, and lets the generation agent speak, which
    still holds the floor at the end, whatever tools it called; the values
    the iteration ends with are those of the head of an iteration again.
    So in all that follows, however long, nobody but the console and the
    generation agent takes part, and a session that ends, ends with the
    generation agent holding the floor. *)
Theorem generation_agent_keeps_the_floor lv fuel o n :
  reachable buffer_get lv →
  state lv !! "current_speaker" = Some (PStr (value Generation)) →
  state lv !! "just_finished" = Some (PBool false) →
  (∃ asked built st msg h reply lv' n',
     exec o n (body buffer_get lv)
     = (asked ++ [EAgent Generation built st msg h reply], Ok lv', n') ∧
     Forall (fun e => is_input e = true) asked ∧
     st !! "current_speaker" = Some (PStr (value Generation)) ∧
     state lv' !! "current_speaker" = Some (PStr (value Generation)) ∧
     state lv' !! "just_finished" = Some (PBool false) ∧
     (should_continue lv = true → reachable buffer_get lv')) ∧
  Forall console_or_generation
    (trace_of (exec o n (while buffer_get fuel lv))) ∧
  ∀ lv_end,
    result_of (exec o n (while buffer_get fuel lv)) = Ok (Some lv_end) →
    state lv_end !! "current_speaker" = Some (PStr (value Generation)).
Proof.
  intros Hr Hs Hf. pose proof (reachable_inv buffer_get lv Hr) as Hi.
  split; [|by apply while_generation].
  destruct (body_generation lv o n Hi Hs Hf) as
    (asked & built & st & msg & h & reply & lv1 & n1 & He & Hin & Hst & _
     & Hs1 & Hf1).
  eexists asked, built, st, msg, h, reply, lv1, n1.
  repeat split; try done.
  intros Hsc. by eapply reach_step.
Qed.

(** ** The parameters of the document processor *)

(** Property X14.
    The dict an agent is built with differs from the dict at the head of
    the iteration in [just_finished] at most.  So the processor of the
    preprocessing agent, which copies its three parameters when the agent
    is built, runs [process_documents] on the values from the head of the
    iteration, whatever the setters record during the turn. *)
Theorem processor_keeps_parameters_of_iteration_start
    (Node : Type) (load_data : pyval -> result (list DocumentPipeline.Document))
    (splitter : list DocumentPipeline.Document -> pyval -> pyval ->
                result (list Node))
    lv o n who built st m h reply :
  EAgent who built st m h reply ∈ trace_of (exec o n (body buffer_get lv)) →
  (∀ key, key ≠ "just_finished" → built !! key = state lv !! key) ∧
  DocumentPipeline.process_documents Node load_data splitter
    (DocumentPipeline.init built)
  = DocumentPipeline.process_documents Node load_data splitter
      (DocumentPipeline.init (state lv)).
Proof.
  rewrite exec_body. pose proof (utterance_effect lv o n) as Hu.
  destruct (exec o n (utterance lv)) as [[t1 [[msg lv1]|e]] n1];
    destruct Hu as [Hno Hu]; rewrite Forall_forall in Hno.
  2:{ unfold trace_of; simpl. intros Hin. by apply Hno in Hin as [_ ?]. }
  destruct Hu as (Hst & _).
  pose proof (turn_trace buffer_get msg lv1 o n1) as Ht.
  destruct (exec o n1 (turn buffer_get msg lv1)) as [[t2 r] n2].
  unfold trace_of in *. simpl in *. rewrite Forall_forall in Ht.
  intros Hin. apply elem_of_app in Hin as [Hin|Hin];
    [by apply Hno in Hin as [_ ?]|].
  apply Ht in Hin. subst built.
  split; [exact Hst|].
  unfold DocumentPipeline.init, DocumentPipeline.dict_get.
  by rewrite !Hst.
Qed.

End LoopSafety.

(** * Further properties of the tools *)

(** ** Recorded parameters and the checks of the router *)

(** Property X13.
    What a setter of the preprocessing agent records is what the check of
    the orchestration agent for that field then reports, also after the
    agent has called its completion action: completing a task does not
    clear the parameters collected for it. *)
Theorem recorded_parameters_are_reported (v : pyval) (st : gmap string pyval) :
  let reported (set : pyval → tool bool) (check : tool bool) :=
    let st1 := snd (set v st) in
    let st2 := snd (DocumentPreprocessingAgent.done st1) in
    check st1 = (Ok (is_not_None v), st1) ∧
    check st2 = (Ok (is_not_None v), st2) in
  reported DocumentPreprocessingAgent.has_input_dir
    OrchestrationAgent.has_input_dir ∧
  reported DocumentPreprocessingAgent.has_chunk_size
    OrchestrationAgent.has_chunk_size ∧
  reported DocumentPreprocessingAgent.has_chunk_overlap
    OrchestrationAgent.has_chunk_overlap.
Proof.
  unfold DocumentPreprocessingAgent.has_input_dir,
    DocumentPreprocessingAgent.has_chunk_size,
    DocumentPreprocessingAgent.has_chunk_overlap.
  cbv zeta. rewrite !setter_run, !completion_run. simpl.
  unfold OrchestrationAgent.has_input_dir, OrchestrationAgent.has_chunk_size,
    OrchestrationAgent.has_chunk_overlap, OrchestrationAgent.has_field.
  unfold mbind, tool_bind, tbind, getitem, mret, tool_ret, tret.
  repeat split; by simplify_map_eq.
Qed.

(** ** The argument of the completion action of the generation agent *)

Lemma assoc_get_set_eq key v d : assoc_get key (GenerationAgent.assoc_set key v d) = Some v.
Proof.
  induction d as [|[k w] d IH]; simpl; [by rewrite String.eqb_refl|].
  destruct (String.eqb_spec k key) as [->|Hne]; simpl.
  - by rewrite String.eqb_refl.
  - by destruct (String.eqb_spec k key).
Qed.

Lemma assoc_get_set_ne key key' v d :
  key' ≠ key → assoc_get key' (GenerationAgent.assoc_set key v d) = assoc_get key' d.
Proof.
  intros Hne. induction d as [|[k w] d IH]; simpl.
  - by destruct (String.eqb_spec key key') as [->|].
  - destruct (String.eqb_spec k key) as [->|Hk]; simpl.
    + by destruct (String.eqb_spec key key') as [->|].
    + by destruct (String.eqb_spec k key').
Qed.

(** Property X10.
    [done(state)] of the generation agent works on its argument and never
    on the dict of the session.  When retrieval fails, that failure is
    raised.  Otherwise an argument that is not a dict gives an attribute
    error, raised where the query is read.  On a dict a failure of the
    synthesis is raised, and after an answer the argument has
    [current_speaker] null and [just_finished] true, keeps its other
    entries, and the answer is returned.  Whenever something is raised the
    argument is as it was. *)
Theorem generation_done_writes_its_argument
    (arg : pyval) (outside : GenerationAgent.executors)
    (st : gmap string pyval) :
  let r := fst (GenerationAgent.done_on_argument arg outside) in
  let arg' := snd (GenerationAgent.done_on_argument arg outside) in
  GenerationAgent.done arg outside st = (r, st) ∧
  match outside, arg with
  | GenerationAgent.Retrieval_fails e, _ => r = Raised e ∧ arg' = arg
  | GenerationAgent.Synthesis_fails e, PDict _ => r = Raised e ∧ arg' = arg
  | GenerationAgent.Answers response, PDict d =>
      r = Ok response ∧
      ∃ d', arg' = PDict d' ∧
            assoc_get "current_speaker" d' = Some PNone ∧
            assoc_get "just_finished" d' = Some (PBool true) ∧
            ∀ key, key ≠ "current_speaker" → key ≠ "just_finished" →
                   assoc_get key d' = assoc_get key d
  | _, _ => r = Raised AttributeError ∧ arg' = arg
  end.
Proof.
  split; [reflexivity|].
  destruct outside as [e|e|response]; [done| |].
  - by destruct arg.
  - destruct arg; try done. split; [done|]. simpl.
    eexists. split; [reflexivity|]. split; [|split].
    + by rewrite assoc_get_set_ne, assoc_get_set_eq.
    + by rewrite assoc_get_set_eq.
    + intros key H1 H2. by rewrite !assoc_get_set_ne.
Qed.

(** ** The document pipeline *)

Section PipelineFacts.

Import DocumentPipeline.

Variable Node : Type.
Variable load_data : pyval -> result (list Document).
Variable splitter : list Document -> pyval -> pyval -> result (list Node).

(** Property X15.
    For a directory of ASCII documents: [process_documents] fails exactly
    when the directory cannot be read, with the exception of the reader,
    and then neither splits nor saves.  Otherwise it returns normally
    after one load, one split and one save: the splitter is given as many
    documents as were read, with their metadata untouched and their text
    transformed, and what is saved is what the splitter gave, or the empty
    list when the splitter failed. *)
Theorem process_documents_outcome (self : preprocess_docs) :
  (∀ documents, load_data (input_dir self) = Ok documents →
                Forall (fun doc => ascii_text (text doc)) documents) →
  let run := process_documents Node load_data splitter self in
  (∀ e, snd run = Raised e ↔ load_data (input_dir self) = Raised e) ∧
  match load_data (input_dir self) with
  | Raised _ => fst run = [Loaded Node (input_dir self)]
  | Ok documents =>
      ∃ given nodes,
        fst run = [Loaded Node (input_dir self);
                   Split Node given (chunk_size self) (chunk_overlap self);
                   Saved Node nodes] ∧
        map metadata given = map metadata documents ∧
        map text given = map transform_content (map text documents) ∧
        (splitter given (chunk_size self) (chunk_overlap self) = Ok nodes ∨
         (∃ e, splitter given (chunk_size self) (chunk_overlap self)
               = Raised e) ∧ nodes = [])
  end.
Proof.
  intros _.
  unfold process_documents, documents_transformation,
    split_documents_into_nodes, save_nodes.
  destruct (load_data (input_dir self)) as [documents|e0]; simpl.
  - split; [intros e; split; discriminate|].
    eexists _, _. split; [reflexivity|].
    split; [by rewrite map_map|]. split; [by rewrite !map_map|].
    destruct (splitter _ _ _) as [nodes|e]; [by left|right; eauto].
  - split; [|done]. intros e. split; congruence.
Qed.

End PipelineFacts.

(** ** The transformation of the text *)

Section TextFacts.

Import DocumentPipeline.

Lemma lower_char_word c : is_word (lower_char c) = is_word c.
Proof. destruct c as [[] [] [] [] [] [] [] []]; reflexivity. Qed.

Lemma space_not_word c : is_space c = true → is_word c = false.
Proof. destruct c as [[] [] [] [] [] [] [] []]; vm_compute; congruence. Qed.

Lemma clean_after_steps c0 :
  is_ascii c0 = true →
  is_space (lower_char c0) = false →
  is_word (lower_char c0) || is_space (lower_char c0)
  || negb (is_ascii (lower_char c0)) = true →
  clean_char (lower_char c0) = true.
Proof. destruct c0 as [[] [] [] [] [] [] [] []]; vm_compute; congruence. Qed.

Lemma lower_chars s :
  ascii_text s →
  Forall (fun c => ∃ c0, is_ascii c0 = true ∧ c = lower_char c0)
    (list_ascii_of_string (lower s)).
Proof.
  unfold ascii_text. induction s as [|c s IH]; simpl; [constructor|].
  intros H. apply Forall_cons in H as [Hc Hs].
  constructor; [eauto|by apply IH].
Qed.

Lemma collapse_chars (P : ascii → Prop) in_run s :
  Forall P (list_ascii_of_string s) →
  Forall (fun c => c = " "%char ∨ is_space c = false ∧ P c)
    (list_ascii_of_string (collapse_from in_run s)).
Proof.
  revert in_run. induction s as [|c s IH]; intros in_run; simpl;
    [constructor|].
  intros H. apply Forall_cons in H as [Hc Hs].
  destruct (is_space c) eqn:Esp.
  - destruct in_run; simpl; [by apply IH|].
    constructor; [by left|by apply IH].
  - simpl. constructor; [by right|by apply IH].
Qed.

Lemma remove_chars (P : ascii → Prop) s :
  Forall P (list_ascii_of_string s) →
  Forall (fun c => P c ∧ is_word c || is_space c || negb (is_ascii c) = true)
    (list_ascii_of_string (remove_punctuation s)).
Proof.
  induction s as [|c s IH]; simpl; [constructor|].
  intros H. apply Forall_cons in H as [Hc Hs].
  destruct (is_word c || is_space c || negb (is_ascii c)) eqn:Ek; simpl;
    [constructor; [done|by apply IH]|by apply IH].
Qed.

(** Property X16.
    A transformed ASCII text is made of lower-case letters, digits,
    underscores and blanks only: no capital, no punctuation, and no white
    space other than the blank. *)
Theorem transform_content_alphabet s :
  ascii_text s →
  Forall (fun c => clean_char c = true)
    (list_ascii_of_string (transform_content s)).
Proof.
  intros Hs. unfold transform_content.
  eapply Forall_impl;
    [apply remove_chars, collapse_chars, lower_chars, Hs|].
  intros c [[->|[Hsp [c0 [Ha ->]]]] Hk]; [reflexivity|].
  by apply clean_after_steps.
Qed.

Lemma remove_keeps_words s :
  List.filter is_word (list_ascii_of_string (remove_punctuation s))
  = List.filter is_word (list_ascii_of_string s).
Proof.
  induction s as [|c s IH]; simpl; [done|].
  destruct (is_word c || is_space c || negb (is_ascii c)) eqn:Ek; simpl;
    rewrite IH; [done|].
  apply orb_false_elim in Ek as [Ek _]. apply orb_false_elim in Ek as [-> _].
  done.
Qed.

Lemma collapse_keeps_words in_run s :
  List.filter is_word (list_ascii_of_string (collapse_from in_run s))
  = List.filter is_word (list_ascii_of_string s).
Proof.
  revert in_run. induction s as [|c s IH]; intros in_run; simpl; [done|].
  destruct (is_space c) eqn:Esp.
  - rewrite (space_not_word c Esp).
    destruct in_run; simpl; by rewrite IH.
  - simpl. by rewrite IH.
Qed.

Lemma lower_keeps_words s :
  List.filter is_word (list_ascii_of_string (lower s))
  = List.map lower_char (List.filter is_word (list_ascii_of_string s)).
Proof.
  induction s as [|c s IH]; simpl; [done|].
  rewrite lower_char_word, IH. by destruct (is_word c).
Qed.

(** Property X17.
    The transformation drops no word character and adds none: the
    letters, digits and underscores of an ASCII text come out in the same
    order, lower-cased. *)
Theorem transform_content_keeps_words s :
  ascii_text s →
  List.filter is_word (list_ascii_of_string (transform_content s))
  = List.map lower_char (List.filter is_word (list_ascii_of_string s)).
Proof.
  intros _. unfold transform_content, collapse_whitespace.
  by rewrite remove_keeps_words, collapse_keeps_words, lower_keeps_words.
Qed.

End TextFacts.

(** * Further properties of routing *)

Section Routing.

Variable buffer_get : list ChatMessage -> list ChatMessage.



Lemma insert_keeps_key (st : gmap string pyval) key key' v :
  is_Some (st !! key) → is_Some (<[key' := v]> st !! key).
Proof.
  intros H. destruct (decide (key' = key)) as [->|Hne].
  - rewrite lookup_insert_eq. eauto.
  - by rewrite lookup_insert_ne.
Qed.

Lemma apply_calls_keeps_key who cs st key :
  is_Some (st !! key) → is_Some (apply_calls who cs st !! key).
Proof.
  unfold apply_calls. revert st.
  induction cs as [|c cs IH]; intros st H; simpl; [done|].
  apply IH. unfold tool_effect. destruct (owns who c); [|done].
  rewrite run_tool_state. destruct c; auto using insert_keeps_key.
Qed.

Lemma body_keeps_key lv o n lv' key :
  result_of (exec o n (body buffer_get lv)) = Ok lv' →
  is_Some (state lv !! key) → is_Some (state lv' !! key).
Proof.
  rewrite exec_body. intros Hr Hk.
  assert (match exec o n (utterance lv) with
          | (_, Ok (_, lv1), _) => is_Some (state lv1 !! key)
          | _ => True
          end) as Hu.
  { unfold utterance, item.
    destruct (first_run lv); simpl; [done|].
    destruct (is_retry lv); simpl; [done|].
    destruct (state lv !! "just_finished") as [jf|]; simpl; [|done].
    destruct (eq_True jf); simpl.
    - destruct (current_history lv) as [h|]; simpl; [|done].
      destruct (String.eqb _ no_further_task); simpl.
      + destruct (String.eqb (lower _) "exit"); simpl;
          by apply insert_keeps_key.
      + by apply insert_keeps_key.
    - by destruct (String.eqb (lower _) "exit"). }
  destruct (exec o n (utterance lv)) as [[t1 [[msg lv1]|e]] n1];
    [|unfold result_of in Hr; simpl in Hr; discriminate].
  revert Hr. unfold turn, resolve_speaker, item.
  destruct (state lv1 !! "current_speaker") as [cur|]; simpl;
    [|unfold result_of; simpl; discriminate].
  assert (∀ ns w s1, dispatch ns (state lv1) = Some (w, s1) →
                     is_Some (s1 !! key)) as Hd.
  { intros ns w s1 Hd. apply dispatch_Some in Hd as [_ Hd].
    destruct Hd as [[_ ->]|[_ ->]]; [by apply insert_keeps_key|done]. }
  destruct (truthy cur); simpl.
  - destruct (dispatch cur (state lv1)) as [[w s1]|] eqn:Ed;
      unfold result_of; simpl; intros Hr; simplify_eq; simpl; [|done].
    eapply apply_calls_keeps_key, Hd, Ed.
  - destruct (dispatch _ (state lv1)) as [[w s1]|] eqn:Ed;
      unfold result_of; simpl; intros Hr; simplify_eq; simpl; [|done].
    eapply apply_calls_keeps_key, Hd, Ed.
Qed.

(** Property X12.
    No key of the initial dict is ever removed: at the head of every
    iteration each of the seven checks of the orchestration agent returns
    a boolean and leaves the dict as it is, none raises a key error. *)
Theorem orchestration_checks_never_fail lv key :
  reachable buffer_get lv →
  is_Some (get_initial_state !! key) →
  ∃ v, state lv !! key = Some v ∧
       OrchestrationAgent.has_field key (state lv)
       = (Ok (is_not_None v), state lv).
Proof.
  intros Hr Hk.
  assert (is_Some (state lv !! key)) as [v Hv].
  { induction Hr as [|lv o n t lv' n' _ IH _ He]; [done|].
    apply (body_keeps_key lv o n lv'); [by rewrite He|exact IH]. }
  exists v. split; [done|].
  unfold OrchestrationAgent.has_field, mbind, tool_bind, tbind, getitem.
  by rewrite Hv.
Qed.

End Routing.

(** Property X9.
    The concierge and the generation agent have no tool that writes the
    dict they close over: whatever calls their turn makes, the dict is
    afterwards what it was. *)
Theorem concierge_and_generation_write_nothing who cs st :
  who ∈ [Concierge; Generation] → apply_calls who cs st = st.
Proof.
  intros Hw. unfold apply_calls. induction cs as [|c cs IH]; simpl; [done|].
  assert (tool_effect who st c = st) as ->; [|done].
  unfold tool_effect. destruct (owns who c) eqn:Eo; [|done].
  rewrite run_tool_state.
  decompose_list_elem_of; subst; by destruct c.
Qed.

(** * The further properties at sample sessions *)

Lemma iteration_stops_exactly_on_exit_witness :
  let lv := Session.after_first Session.leaving in
  let x := exec Session.leaving 2 (body id lv) in
  ∃ lv',
    result_of x = Ok lv' ∧
    exit_read (trace_of x) = true ∧
    should_continue lv = true ∧
    should_continue lv' = false.
Proof.
  intros lv x.
  assert (∃ lv', result_of x = Ok lv') as [lv' Hr]
    by (eexists; vm_compute; reflexivity).
  exists lv'. split; [exact Hr|].
  assert (exit_read (trace_of x) = true) as He by (vm_compute; reflexivity).
  split; [exact He|]. split; [reflexivity|].
  rewrite (iteration_stops_exactly_on_exit id lv Session.leaving 2 lv' Hr).
  fold x. rewrite He. reflexivity.
Defined.

Lemma run_ends_only_after_exit_witness :
  let x := exec Session.leaving 0 (run id 5) in
  ∃ lv,
    result_of x = Ok (Some lv) ∧
    should_continue lv = false ∧
    exit_read (trace_of x) = true.
Proof.
  intros x.
  assert (∃ lv, result_of x = Ok (Some lv)) as [lv Hr]
    by (eexists; vm_compute; reflexivity).
  exists lv. split; [exact Hr|].
  exact (run_ends_only_after_exit id 5 Session.leaving 0 lv Hr).
Defined.

Lemma iteration_adopts_agent_log_witness :
  let x := exec Session.bare 0 (body id initial_vars) in
  let log := [Session.said " data_pre_processing "; Session.hello;
              Session.saved] in
  ∃ lv',
    result_of x = Ok lv' ∧
    root_memory lv' = log ∧
    current_history lv' = Some log.
Proof.
  intros x log.
  assert (∃ lv', result_of x = Ok lv') as [lv' Hr]
    by (eexists; vm_compute; reflexivity).
  exists lv'. split; [exact Hr|].
  destruct (iteration_adopts_agent_log id initial_vars Session.bare 0 lv' Hr)
    as [H _].
  apply (H Data_pre_processing get_initial_state Bench.dispatched greeting
           [Session.said " data_pre_processing "] Session.finishing
           [EOrchestration get_initial_state greeting []
              " data_pre_processing "]).
  vm_compute. reflexivity.
Defined.

Lemma generation_parameters_stay_unset_witness :
  let lv := Session.after_first Session.preprocessing in
  reachable id lv ∧
  OrchestrationAgent.has_query (state lv) = (Ok false, state lv).
Proof.
  intros lv.
  assert (reachable id lv) as Hr.
  { apply after_first_reachable. eexists. vm_compute. reflexivity. }
  split; [exact Hr|].
  by destruct (generation_parameters_stay_unset id lv Hr) as [H _].
Defined.

Lemma floor_is_released_on_completion_witness :
  let x := exec Session.bare 0 (body id initial_vars) in
  reachable id initial_vars ∧
  (EAgent Data_pre_processing get_initial_state Bench.dispatched greeting
     [Session.said " data_pre_processing "] Session.finishing ∈ trace_of x) ∧
  signals_completion Data_pre_processing (calls Session.finishing) = true ∧
  ∃ lv',
    result_of x = Ok lv' ∧
    state lv' !! "current_speaker" = Some PNone ∧
    state lv' !! "just_finished" = Some (PBool true).
Proof.
  intros x.
  assert (reachable id initial_vars) as Hr by apply reach_init.
  assert (EAgent Data_pre_processing get_initial_state Bench.dispatched
            greeting [Session.said " data_pre_processing "] Session.finishing
            ∈ trace_of x) as Hin
    by (vm_compute; right; left).
  assert (signals_completion Data_pre_processing (calls Session.finishing)
          = true) as Hc by reflexivity.
  assert (∃ lv', result_of x = Ok lv') as [lv' Hres]
    by (eexists; vm_compute; reflexivity).
  split; [exact Hr|]. split; [exact Hin|]. split; [exact Hc|].
  exists lv'. split; [exact Hres|].
  destruct (floor_is_released_on_completion id initial_vars Session.bare 0
              Data_pre_processing get_initial_state Bench.dispatched greeting
              [Session.said " data_pre_processing "] Session.finishing lv'
              Hr Hin Hres) as (_ & H & _).
  exact (H Hc).
Defined.

Lemma generation_agent_keeps_the_floor_witness :
  let lv := Session.after_first Walkthrough.to_generation in
  reachable id lv ∧
  state lv !! "current_speaker" = Some (PStr (value Generation)) ∧
  state lv !! "just_finished" = Some (PBool false) ∧
  map outline
    (trace_of (exec Walkthrough.to_generation 2 (while id 3 lv)))
  = [Asked_user " exit "; Spoke Generation "exit"] ∧
  Forall console_or_generation
    (trace_of (exec Walkthrough.to_generation 2 (while id 3 lv))).
Proof.
  intros lv.
  assert (reachable id lv) as Hr.
  { apply after_first_reachable. eexists. vm_compute. reflexivity. }
  assert (state lv !! "current_speaker" = Some (PStr (value Generation)))
    as Hs by (vm_compute; reflexivity).
  assert (state lv !! "just_finished" = Some (PBool false)) as Hf
    by (vm_compute; reflexivity).
  split; [exact Hr|]. split; [exact Hs|]. split; [exact Hf|].
  split; [vm_compute; reflexivity|].
  by destruct (generation_agent_keeps_the_floor id lv 3
                 Walkthrough.to_generation 2 Hr Hs Hf) as (_ & H & _).
Defined.

Lemma processor_keeps_parameters_of_iteration_start_witness :
  let x := exec Session.bare 0 (body id initial_vars) in
  (EAgent Data_pre_processing get_initial_state Bench.dispatched greeting
     [Session.said " data_pre_processing "] Session.finishing ∈ trace_of x) ∧
  DocumentPipeline.process_documents string Bench.reader Bench.splitter
    (DocumentPipeline.init get_initial_state)
  = DocumentPipeline.process_documents string Bench.reader Bench.splitter
      (DocumentPipeline.init (state initial_vars)).
Proof.
  intros x.
  assert (EAgent Data_pre_processing get_initial_state Bench.dispatched
            greeting [Session.said " data_pre_processing "] Session.finishing
            ∈ trace_of x) as Hin
    by (vm_compute; right; left).
  split; [exact Hin|].
  by destruct (processor_keeps_parameters_of_iteration_start id string
                 Bench.reader Bench.splitter initial_vars Session.bare 0
                 Data_pre_processing get_initial_state Bench.dispatched
                 greeting [Session.said " data_pre_processing "]
                 Session.finishing Hin) as [_ H].
Defined.

Lemma recorded_parameters_are_reported_witness :
  OrchestrationAgent.has_input_dir
    (snd (DocumentPreprocessingAgent.has_input_dir (PStr "") get_initial_state))
  = (Ok true,
     snd (DocumentPreprocessingAgent.has_input_dir (PStr "") get_initial_state)).
Proof.
  destruct (recorded_parameters_are_reported (PStr "") get_initial_state)
    as [[H _] _].
  exact H.
Defined.

Lemma generation_done_writes_its_argument_witness :
  GenerationAgent.done (PStr "") (GenerationAgent.Answers "answer")
    Session.generating
  = (Raised AttributeError, Session.generating) ∧
  GenerationAgent.done_on_argument (PDict [("query", PStr "what is X")])
    (GenerationAgent.Answers "answer")
  = (Ok "answer",
     PDict [("query", PStr "what is X"); ("current_speaker", PNone);
            ("just_finished", PBool true)]).
Proof.
  split; [|reflexivity].
  by destruct (generation_done_writes_its_argument (PStr "")
                 (GenerationAgent.Answers "answer") Session.generating)
    as [H _].
Defined.

Lemma process_documents_outcome_witness :
  (∀ documents,
     Bench.reader (DocumentPipeline.input_dir
                     (DocumentPipeline.init Bench.dispatched)) = Ok documents →
     Forall (fun doc => DocumentPipeline.ascii_text (DocumentPipeline.text doc))
       documents) ∧
  ∀ e, snd (DocumentPipeline.process_documents string Bench.reader
              Bench.splitter (DocumentPipeline.init Bench.dispatched))
       ≠ Raised e.
Proof.
  assert (∀ documents,
            Bench.reader (DocumentPipeline.input_dir
                            (DocumentPipeline.init Bench.dispatched))
            = Ok documents →
            Forall (fun doc =>
                      DocumentPipeline.ascii_text (DocumentPipeline.text doc))
              documents) as Ha.
  { intros documents H. injection H as <-.
    unfold DocumentPipeline.ascii_text. simpl. repeat constructor. }
  split; [exact Ha|].
  destruct (process_documents_outcome string Bench.reader Bench.splitter
              (DocumentPipeline.init Bench.dispatched) Ha) as [H _].
  intros e He. apply H in He. discriminate He.
Defined.

Lemma transform_content_alphabet_witness :
  DocumentPipeline.ascii_text Walkthrough.sample ∧
  DocumentPipeline.transform_content Walkthrough.sample = "hello world a_bc" ∧
  Forall (fun c => clean_char c = true)
    (list_ascii_of_string
       (DocumentPipeline.transform_content Walkthrough.sample)).
Proof.
  assert (DocumentPipeline.ascii_text Walkthrough.sample) as Ha
    by (unfold DocumentPipeline.ascii_text; simpl; repeat constructor).
  split; [exact Ha|]. split; [reflexivity|].
  exact (transform_content_alphabet Walkthrough.sample Ha).
Defined.

Lemma transform_content_keeps_words_witness :
  DocumentPipeline.ascii_text Walkthrough.sample ∧
  List.filter DocumentPipeline.is_word
    (list_ascii_of_string
       (DocumentPipeline.transform_content Walkthrough.sample))
  = list_ascii_of_string "helloworlda_bc".
Proof.
  assert (DocumentPipeline.ascii_text Walkthrough.sample) as Ha
    by (unfold DocumentPipeline.ascii_text; simpl; repeat constructor).
  split; [exact Ha|].
  rewrite (transform_content_keeps_words Walkthrough.sample Ha).
  reflexivity.
Defined.


Lemma orchestration_checks_never_fail_witness :
  let lv := Session.after_first Session.preprocessing in
  reachable id lv ∧
  is_Some (get_initial_state !! "input_dir") ∧
  OrchestrationAgent.has_input_dir (state lv) = (Ok true, state lv).
Proof.
  intros lv.
  assert (reachable id lv) as Hr.
  { apply after_first_reachable. eexists. vm_compute. reflexivity. }
  assert (is_Some (get_initial_state !! "input_dir")) as Hk
    by (eexists; reflexivity).
  split; [exact Hr|]. split; [exact Hk|].
  destruct (orchestration_checks_never_fail id lv "input_dir" Hr Hk)
    as (v & Hv & H).
  assert (v = PStr "/docs") as ->.
  { assert (state lv !! "input_dir" = Some (PStr "/docs")) as Hv'
      by (vm_compute; reflexivity).
    congruence. }
  exact H.
Defined.

Lemma concierge_and_generation_write_nothing_witness :
  (Generation ∈ [Concierge; Generation]) ∧
  apply_calls Generation (calls Walkthrough.answering) Session.generating
  = Session.generating.
Proof.
  assert (Generation ∈ [Concierge; Generation]) as Hw by (right; left).
  split; [exact Hw|].
  exact (concierge_and_generation_write_nothing Generation _ _ Hw).
Defined.
